(** * Hierarchical SVD (heat/core/linalg/svdtools.py): a shallow embedding

    The file embeds, in this order, the auxiliary routine
    [compute_local_truncated_svd], the scheduling sweep and the level loop of
    [hsvd] with its post-processing, and the user-facing gates [hsvd_rank]
    and [hsvd_rtol]; the properties follow the definitions.

    Conventions.
    - Tensor entries are exact rationals ([Q]); rounding is not modelled.
      [torch.norm(x) ** 2] is the sum of the squares of the entries.
    - Python integers are [Z]; positions in lists and process ranks are [nat].
      Where a gate compares the int64 tensor [A_local_size] with a Python
      integer, the integer must fit int64 and the comparison raises
      otherwise ([tensor_ge]).
    - A 2-D tensor is kept column-wise, because every operation of the
      algorithm (column slicing, [hstack], scaling by a diagonal) is by column.
    - The dense backend ([torch.linalg.svd], the square root inside
      [vector_norm]) is a parameter of the definitions that call it.
    - Python exceptions are values of [exn]; a routine that can raise returns
      a [result].
    - The processes of the communicator run the same program on the same
      published widths. The model keeps the states of all processes in one
      list and moves them forward together, one pass of the loop at a time; a
      receive reads the state of the sender before the pass. Printing and
      devices are left out. *)

From Stdlib Require Import ZArith QArith Qabs Lia Lqa.
From stdpp Require Import base list.

Open Scope Q_scope.

(** ** Exceptions and results *)

Inductive exn : Set :=
| TypeError
| ValueError
| RuntimeError
| UnboundLocalError
| IndexError.

Inductive result (A : Type) : Type :=
| Ok (a : A)
| Raise (e : exn).

Arguments Ok {A} a.
Arguments Raise {A} e.

#[global] Instance result_bind : MBind result := λ A B k r,
  match r with
  | Ok a => k a
  | Raise e => Raise e
  end.

(** ** Tensors *)

Inductive dtype : Set := float32 | float64 | other_dtype.

#[global] Instance dtype_eq_dec : EqDecision dtype.
Proof. solve_decision. Defined.

(** A 2-D tensor of shape [(shape0, length columns)]; every column has
    [shape0] entries. *)
Record Tensor : Type := mkTensor {
  dtype_of : dtype;
  shape0 : nat;
  columns : list (list Q)
}.

Definition shape1 (M : Tensor) : nat := length (columns M).

(** [torch.zeros(m, c, dtype=d)] *)
Definition zeros (d : dtype) (m c : nat) : Tensor :=
  mkTensor d m (replicate c (replicate m 0)).

(** ** Python sequences *)

(** Normalisation of a slice bound [i] against a sequence of length [n]:
    a negative bound counts from the end, and the result is clipped to
    [0 .. n]. *)
Definition slice_bound (n : nat) (i : Z) : nat :=
  if (i <? 0)%Z
  then Z.to_nat (Z.max 0 (Z.of_nat n + i))
  else Z.to_nat (Z.min i (Z.of_nat n)).

(** [l[i:]] *)
Definition slice_from {A : Type} (i : Z) (l : list A) : list A :=
  drop (slice_bound (length l) i) l.

(** [l[:i]] *)
Definition slice_to {A : Type} (i : Z) (l : list A) : list A :=
  take (slice_bound (length l) i) l.

(** [M[:, :i]] *)
Definition cols_to (i : Z) (M : Tensor) : Tensor :=
  mkTensor (dtype_of M) (shape0 M) (slice_to i (columns M)).

(** [range(n)] *)
Definition range (n : nat) : list Z := map Z.of_nat (seq 0 n).

(** [max(l)] and [min(l)] of the Python builtins: [ValueError] on an empty
    sequence. *)
Definition py_max (l : list Z) : result Z :=
  match l with
  | [] => Raise ValueError
  | x :: t => Ok (fold_left Z.max t x)
  end.

Definition py_min (l : list Z) : result Z :=
  match l with
  | [] => Raise ValueError
  | x :: t => Ok (fold_left Z.min t x)
  end.

(** [torch.argwhere(p(l))] for a 1-D tensor: the positions where [p] holds,
    in increasing order. *)
Fixpoint argwhere_from {A : Type} (p : A -> bool) (i : Z) (l : list A) : list Z :=
  match l with
  | [] => []
  | x :: t =>
      if p x then i :: argwhere_from p (i + 1)%Z t
      else argwhere_from p (i + 1)%Z t
  end.

Definition argwhere {A : Type} (p : A -> bool) (l : list A) : list Z :=
  argwhere_from p 0%Z l.

(** [torch.norm(l) ** 2] *)
Definition norm_sq (l : list Q) : Q :=
  fold_right (fun x acc => x * x + acc) 0 l.

(** [x < y] on tensor entries *)
Definition Qlt_bool (x y : Q) : bool := negb (Qle_bool y x).

(** ** The local truncation *)

Definition noiselevel_of (d : dtype) : result Q :=
  match d with
  | float64 => Ok (1 # 100000000000000)
  | float32 => Ok (1 # 10000000)
  | other_dtype => Raise UnboundLocalError
  end.

(** [torch.argwhere(sigma_loc >= noiselevel)] *)
Definition no_noise_idx (noiselevel : Q) (sigma_loc : list Q) : list Z :=
  argwhere (fun s => Qle_bool noiselevel s) sigma_loc.

(** The tensor [[torch.norm(sigma_loc[k:]) ** 2 for k in range(c + 1)]]. *)
Definition tail_norms (sigma_loc : list Q) : list Q :=
  map (fun k => norm_sq (slice_from k sigma_loc)) (range (length sigma_loc + 1)).

(** [min(torch.argwhere(tail_norms < loctol ** 2))] *)
Definition ideal_trunc_rank (sigma_loc : list Q) (loctol : Q) : result Z :=
  py_min (argwhere (fun t => Qlt_bool t (loctol * loctol)) (tail_norms sigma_loc)).

(** The rank before the safety shift: [min(maxrank, cut_noise_rank)], or
    [min(maxrank, ideal_trunc_rank, cut_noise_rank)] when a tolerance is
    given. *)
Definition base_rank (sigma_loc : list Q) (maxrank : Z) (loctol : option Q)
    (cut_noise_rank : Z) : result Z :=
  match loctol with
  | None => Ok (Z.min maxrank cut_noise_rank)
  | Some tol =>
      ideal ← ideal_trunc_rank sigma_loc tol;
      Ok (Z.min (Z.min maxrank ideal) cut_noise_rank)
  end.

Section LocalTruncation.

(** [torch.linalg.svd(M, full_matrices=False)], of which the routine keeps
    the left factor and the singular values. *)
Variable svd : Tensor -> Tensor * list Q.

(** [level] and [proc_id] only appear in the diagnostic that is printed
    when the tolerance rank was clamped; printing is not modelled. *)
Definition compute_local_truncated_svd (level proc_id : nat) (U_loc : Tensor)
    (maxrank : Z) (loctol : option Q) (safetyshift : Z)
  : result (Tensor * list Q * Q) :=
  let '(U_loc, sigma_loc) := svd U_loc in
  noiselevel ← noiselevel_of (dtype_of U_loc);
  let idx := no_noise_idx noiselevel sigma_loc in
  if decide (length idx ≠ 0%nat) then
    mx ← py_max idx;
    let cut_noise_rank := (mx + 1)%Z in
    loc_trunc_rank ← base_rank sigma_loc maxrank loctol cut_noise_rank;
    let loc_trunc_rank :=
      Z.min (Z.of_nat (length sigma_loc)) (loc_trunc_rank + safetyshift) in
    let err_squared_loc :=
      norm_sq (slice_from (loc_trunc_rank - safetyshift) sigma_loc) in
    Ok (cols_to loc_trunc_rank U_loc, slice_to loc_trunc_rank sigma_loc,
        err_squared_loc)
  else
    let err_squared_loc := norm_sq sigma_loc in
    let sigma_zero := replicate 1 0 in
    let U_zero := zeros (dtype_of U_loc) (shape0 U_loc) 1 in
    Ok (U_zero, sigma_zero, err_squared_loc).

End LocalTruncation.

(** ** Indexing with bounds *)

(** [l[i]] and [l[i] = x] raise [IndexError] out of range. *)
Definition list_get {A : Type} (l : list A) (i : nat) : result A :=
  match l !! i with
  | Some x => Ok x
  | None => Raise IndexError
  end.

Definition list_set {A : Type} (l : list A) (i : nat) (x : A) : result (list A) :=
  if decide (i < length l)%nat then Ok (<[i:=x]> l) else Raise IndexError.

(** A [for] loop whose body may raise. *)
Fixpoint for_each {S A : Type} (body : S -> A -> result S) (l : list A) (s : S)
  : result S :=
  match l with
  | [] => Ok s
  | x :: t => s' ← body s x; for_each body t s'
  end.

(** ** The scheduling sweep of [hsvd] *)

(** The variables of the sweep. An entry of [send_to] that still holds the
    initial [[]] is [None]. *)
Record sweep_state : Type := mkSweep {
  future_nodes : list nat;
  send_to : list (option nat);
  current_future_node : nat;
  used_budget : Z;
  counter : Z
}.

(** [counter == no_of_merges], which is false when [no_of_merges] is [None]. *)
Definition counter_hit (counter : Z) (no_of_merges : option Z) : bool :=
  match no_of_merges with
  | Some n => (counter =? n)%Z
  | None => false
  end.

Definition sweep_init (no_procs : nat) : sweep_state :=
  mkSweep [0%nat] (replicate no_procs None) 0%nat 0%Z 0%Z.

(** One iteration of [while k < len(active_nodes)]. *)
Definition sweep_body (dims_global : list Z) (maxmergedim : Z)
    (no_of_merges : option Z) (st : sweep_state) (current_idx : nat)
  : result sweep_state :=
  d ← list_get dims_global current_idx;
  if (used_budget st + d >? maxmergedim)%Z || counter_hit (counter st) no_of_merges
  then
    Ok (mkSweep (future_nodes st ++ [current_idx]) (send_to st) current_idx d 1%Z)
  else
    send_to' ← (if negb (used_budget st =? 0)%Z
                then list_set (send_to st) current_idx (Some (current_future_node st))
                else Ok (send_to st));
    Ok (mkSweep (future_nodes st) send_to' (current_future_node st)
          (used_budget st + d)%Z (counter st + 1)%Z).

Definition sweep (no_procs : nat) (dims_global : list Z) (maxmergedim : Z)
    (no_of_merges : option Z) (active_nodes : list nat) : result sweep_state :=
  for_each (sweep_body dims_global maxmergedim no_of_merges) active_nodes
    (sweep_init no_procs).

(** [[k for k in range(no_procs) if send_to[k] == i]] *)
Definition senders_to (no_procs : nat) (send_to : list (option nat)) (i : nat)
  : list nat :=
  filter (fun k => send_to !! k = Some (Some i)) (seq 0 no_procs).

(** The loop [for i in future_nodes: recv_from[i] = ...]. *)
Definition build_recv_from (no_procs : nat) (future_nodes : list nat)
    (send_to : list (option nat)) : result (list (list nat)) :=
  for_each (fun recv_from i => list_set recv_from i (senders_to no_procs send_to i))
    future_nodes (replicate no_procs []).

(** The plan of one level: future nodes, [send_to] and [recv_from]. *)
Record plan : Type := mkPlan {
  plan_future : list nat;
  plan_send_to : list (option nat);
  plan_recv_from : list (list nat)
}.

Definition schedule (no_procs : nat) (dims_global : list Z) (maxmergedim : Z)
    (no_of_merges : option Z) (active_nodes : list nat) : result plan :=
  st ← sweep no_procs dims_global maxmergedim no_of_merges active_nodes;
  recv_from ← build_recv_from no_procs (future_nodes st) (send_to st);
  Ok (mkPlan (future_nodes st) (send_to st) recv_from).

(** [sum(dims_global[k] for k in ks)], with [0] for a rank out of range; used
    to state the width bound of a group. *)
Definition width_sum (dims_global : list Z) (ks : list nat) : Z :=
  foldr (fun k acc => (default 0 (dims_global !! k) + acc)%Z) 0%Z ks.

(** ** Distributed arrays and dense operations *)

(** A distributed array: its number of dimensions, element type, split axis
    and one local tensor per process. The local tensors are meaningful when
    [ndim = 2]. *)
Record DNDarray : Type := mkDND {
  ndim : nat;
  dnd_dtype : dtype;
  split : option nat;
  larrays : list Tensor
}.

(** [M.T] of a local tensor. *)
Definition transpose (M : Tensor) : Tensor :=
  mkTensor (dtype_of M) (shape1 M)
    (map (fun i => map (fun col => nth i col 0) (columns M)) (seq 0 (shape0 M))).

(** [A.T]: the split axis flips and every local tensor is transposed. *)
Definition dnd_T (A : DNDarray) : DNDarray :=
  mkDND (ndim A) (dnd_dtype A) ((fun ax => (1 - ax)%nat) <$> split A)
    (transpose <$> larrays A).

(** The columns of the global matrix behind a column-split (or replicated)
    array. *)
Definition global_columns (A : DNDarray) : list (list Q) :=
  match split A with
  | None => from_option columns [] (head (larrays A))
  | Some _ => concat (columns <$> larrays A)
  end.

(** [M @ torch.diag(d)]: column [i] of [M] times [d_i]. *)
Definition scale_columns (M : Tensor) (d : list Q) : Tensor :=
  mkTensor (dtype_of M) (shape0 M)
    (zip_with (fun col s => map (fun x => x * s) col) (columns M) d).

(** [torch.hstack([M] + Ms)] *)
Definition hstack (M : Tensor) (Ms : list Tensor) : Tensor :=
  mkTensor (dtype_of M) (shape0 M) (columns M ++ concat (columns <$> Ms)).

Definition dot (a b : list Q) : Q :=
  foldr Qplus 0 (zip_with Qmult a b).

(** The columns of [matmul(A.T, U)]: entry [j] of column [i] is the inner
    product of column [j] of [A] with column [i] of [U]. *)
Definition matmul_T (A_cols : list (list Q)) (U : Tensor) : list (list Q) :=
  map (fun u => map (fun a => dot a u) A_cols) (columns U).

(** A floating-point quotient: [None] stands for the non-finite result of a
    division by zero. *)
Definition fdiv (x y : Q) : option Q :=
  if Qeq_bool y 0 then None else Some (x / y).

(** A column of [V @ diag(d)] where the diagonal entry [d] may be
    non-finite: a non-finite factor makes the whole column non-finite. *)
Definition scale_column_by (col : list Q) (d : option Q) : list (option Q) :=
  map (fun v => (fun r => v * r) <$> d) col.

(** Sequencing of a list of results. *)
Fixpoint traverse_from {A B : Type} (f : nat -> A -> result B) (i : nat) (l : list A)
  : result (list B) :=
  match l with
  | [] => Ok []
  | x :: t => y ← f i x; ys ← traverse_from f (S i) t; Ok (y :: ys)
  end.

(** ** The driver [hsvd] *)

(** What one process carries from level to level. *)
Record proc_state : Type := mkProc {
  U_loc : Tensor;
  err_squared_loc : Q
}.

(** The four shapes of the return value. A reconstructed [V] is a list of
    columns whose entries may be non-finite. *)
Inductive hsvd_output : Type :=
| Ret_V_sigma_U (V : list (list (option Q))) (sigma : list Q) (U : Tensor)
    (rel_error_estimate : option Q)
| Ret_V (V : list (list (option Q))) (rel_error_estimate : option Q)
| Ret_U_sigma_V (U : Tensor) (sigma : list Q) (V : list (list (option Q)))
    (rel_error_estimate : option Q)
| Ret_U (U : Tensor) (rel_error_estimate : option Q).

Section Driver.

Variable svd : Tensor -> Tensor * list Q.

(** The square root of the backend, behind [vector_norm], [math.sqrt] and
    [** 0.5]. *)
Variable sqrt : Q -> Q.

(** [vector_norm] of a vector or of all entries of a matrix. *)
Definition vector_norm (entries : list Q) : Q := sqrt (norm_sq entries).

(** [loctol = Anorm * rtol / sqrt(2 * no_procs - 1)], or [None]. *)
Definition loctol_of (Anorm : Q) (rtol : option Q) (no_procs : nat) : option Q :=
  (fun r => Anorm * r / sqrt (2 * inject_Z (Z.of_nat no_procs) - 1)) <$> rtol.

(** The SVD of a process on level 0, followed by the scaling with the
    singular values. *)
Definition level0 (maxrank : Z) (loctol : option Q) (safetyshift : Z)
    (rank : nat) (A_loc : Tensor) : result proc_state :=
  '(U, sigma_loc, err) ←
    compute_local_truncated_svd svd 0 rank A_loc maxrank loctol safetyshift;
  Ok (mkProc (scale_columns U sigma_loc) err).

(** What the process [rank] does in one pass of the [while not finished]
    loop, given the states [procs] of all processes before the pass. A
    future node receives from the ranks in [recv_from[rank]], concatenates,
    sums the errors and truncates again; an active node that is no future
    node sends to [send_to[rank]], which raises when that entry was never
    assigned; any other process does nothing. *)
Definition node_pass (level : nat) (procs : list proc_state) (pl : plan)
    (active_nodes : list nat) (maxrank : Z) (loctol : option Q)
    (safetyshift : Z) (rank : nat) (me : proc_state) : result proc_state :=
  if decide (rank ∈ plan_future pl) then
    recv ← list_get (plan_recv_from pl) rank;
    children ← traverse_from (fun _ c => list_get procs c) 0 recv;
    let U := hstack (U_loc me) (U_loc <$> children) in
    let err := fold_left Qplus (err_squared_loc me :: (err_squared_loc <$> children)) 0 in
    let safetyshift :=
      if decide (length (plan_future pl) = 1%nat) then 0%Z else safetyshift in
    '(U, sigma_loc, err_new) ←
      compute_local_truncated_svd svd (S level) rank U maxrank loctol safetyshift;
    let U :=
      if decide (1 < length (plan_future pl))%nat
      then scale_columns U sigma_loc else U in
    Ok (mkProc U (err + err_new))
  else if decide (rank ∈ active_nodes) then
    match plan_send_to pl !! rank with
    | Some (Some _) => Ok me
    | _ => Raise TypeError
    end
  else Ok me.

(** One pass of the [while not finished] loop over all processes: the
    widths are published, every process computes the same plan, and every
    process does its part. *)
Definition loop_pass (level : nat) (maxrank maxmergedim : Z)
    (loctol : option Q) (safetyshift : Z) (no_of_merges : option Z)
    (active_nodes : list nat) (procs : list proc_state)
  : result (plan * list proc_state) :=
  let no_procs := length procs in
  let dims_global := (fun p => Z.of_nat (shape1 (U_loc p))) <$> procs in
  pl ← schedule no_procs dims_global maxmergedim no_of_merges active_nodes;
  procs' ← traverse_from
              (node_pass level procs pl active_nodes maxrank loctol safetyshift)
              0 procs;
  Ok (pl, procs').

(** The [while not finished] loop. It need not terminate, so the model
    takes a bound on the number of passes and answers [None] when the bound
    is reached. *)
Fixpoint level_loop (fuel : nat) (level : nat) (maxrank maxmergedim : Z)
    (loctol : option Q) (safetyshift : Z) (no_of_merges : option Z)
    (active_nodes : list nat) (procs : list proc_state)
  : option (result (list proc_state)) :=
  match fuel with
  | O => None
  | S fuel =>
      match loop_pass level maxrank maxmergedim loctol safetyshift
              no_of_merges active_nodes procs with
      | Raise e => Some (Raise e)
      | Ok (pl, procs') =>
          if decide (length (plan_future pl) = 1%nat)
          then Some (Ok procs')
          else level_loop fuel (S level) maxrank maxmergedim loctol
                 safetyshift no_of_merges (plan_future pl) procs'
      end
  end.

(** The states in which the loop starts a pass: the first pass starts from
    all ranks, and a pass that leaves more than one future node hands them
    to the next pass as its active nodes. *)
Inductive reduction_level (maxrank maxmergedim : Z) (loctol : option Q)
    (safetyshift : Z) (no_of_merges : option Z)
  : nat -> list nat -> list proc_state -> Prop :=
| reduction_start procs :
    reduction_level maxrank maxmergedim loctol safetyshift no_of_merges
      0 (seq 0 (length procs)) procs
| reduction_next level active_nodes procs pl procs' :
    reduction_level maxrank maxmergedim loctol safetyshift no_of_merges
      level active_nodes procs ->
    loop_pass level maxrank maxmergedim loctol safetyshift no_of_merges
      active_nodes procs = Ok (pl, procs') ->
    length (plan_future pl) ≠ 1%nat ->
    reduction_level maxrank maxmergedim loctol safetyshift no_of_merges
      (S level) (plan_future pl) procs'.

(** [root=0] of the broadcasts after the loop. *)
Definition bcast_root : nat := 0.

(** The post-processing: [V = matmul(A.T, U)], [sigma] the column norms of
    [V], and [V @ diag(1 / sigma)] when [vector_norm(sigma) > 0]. *)
Definition reconstruct_V (A_cols : list (list Q)) (U : Tensor)
  : list (list (option Q)) * list Q :=
  let V := matmul_T A_cols U in
  let sigma := vector_norm <$> V in
  if Qlt_bool 0 (vector_norm sigma)
  then (zip_with scale_column_by V (fdiv 1 <$> sigma), sigma)
  else (map Some <$> V, sigma).

Definition hsvd (fuel : nat) (A : DNDarray) (maxrank maxmergedim : Z)
    (rtol : option Q) (safetyshift : Z) (no_of_merges : option Z) (full : bool)
  : option (result hsvd_output) :=
  let transposeflag := bool_decide (split A = Some 0%nat) in
  let A := if transposeflag then dnd_T A else A in
  let no_procs := length (larrays A) in
  let Anorm := vector_norm (concat (global_columns A)) in
  let loctol := loctol_of Anorm rtol no_procs in
  match traverse_from (level0 maxrank loctol safetyshift) 0 (larrays A) with
  | Raise e => Some (Raise e)
  | Ok procs =>
      finished ← level_loop fuel 0 maxrank maxmergedim loctol safetyshift
                   no_of_merges (seq 0 no_procs) procs;
      Some (
        procs ← finished;
        root ← list_get procs bcast_root;
        let U := U_loc root in
        let rel_error_estimate := fdiv (sqrt (err_squared_loc root)) Anorm in
        if transposeflag || full then
          let '(V, sigma) := reconstruct_V (global_columns A) U in
          if transposeflag && full then Ok (Ret_V_sigma_U V sigma U rel_error_estimate)
          else if transposeflag && negb full then Ok (Ret_V V rel_error_estimate)
          else Ok (Ret_U_sigma_V U sigma V rel_error_estimate)
        else Ok (Ret_U U rel_error_estimate))
  end.

End Driver.

(** ** The gate [hsvd_rank] *)

(** The first argument of the gate: a distributed array or anything else. *)
Inductive pyobj : Type :=
| Dnd (A : DNDarray)
| NotDnd.

(** The keyword arguments of the call of [hsvd] at the end of the gate. *)
Record hsvd_call : Type := mkCall {
  call_A : DNDarray;
  call_maxrank : Z;
  call_maxmergedim : Z;
  call_rtol : option Q;
  call_safetyshift : Z;
  call_no_of_merges : option Z;
  call_full : bool
}.

(** The range of a 64-bit signed integer. *)
Definition int64_min : Z := (- 2 ^ 63)%Z.
Definition int64_max : Z := (2 ^ 63 - 1)%Z.

(** [t >= x] for a 0-dim int64 tensor [t] and a Python integer [x]: the
    integer is converted to int64 first, and the comparison raises
    [RuntimeError] when it does not fit. *)
Definition tensor_ge (t x : Z) : result bool :=
  if (int64_min <=? x)%Z && (x <=? int64_max)%Z
  then Ok (t >=? x)%Z
  else Raise RuntimeError.

(** [max(A.lshape_map[:, 1])]: the largest local extent along axis 1, a
    0-dim int64 tensor. *)
Definition A_local_size (A : DNDarray) : result Z :=
  py_max ((fun M => Z.of_nat (shape1 M)) <$> larrays A).

(** Everything [hsvd_rank] does before it calls [hsvd]: the checks, the
    default of [maxmergedim], and the arguments of the call. *)
Definition hsvd_rank_gate (A : pyobj) (maxrank : Z) (full : bool)
    (maxmergedim : option Z) (safetyshift : Z) : result hsvd_call :=
  match A with
  | NotDnd => Raise TypeError
  | Dnd A =>
      if negb (ndim A =? 2)%nat then Raise ValueError
      else if negb (bool_decide (dnd_dtype A = float32))
              && negb (bool_decide (dnd_dtype A = float64))
      then Raise TypeError
      else
        A_local_size ← A_local_size A;
        maxmergedim ←
          match maxmergedim with
          | Some d =>
              if (d <? 2 * (maxrank + safetyshift) + 1)%Z
              then Raise RuntimeError else Ok d
          | None =>
              ge ← tensor_ge A_local_size (2 * (maxrank + safetyshift))%Z;
              if (ge : bool) then Ok A_local_size
              else Ok (2 * (maxrank + safetyshift) + 1)%Z
          end;
        Ok (mkCall A maxrank maxmergedim None safetyshift None full)
  end.

Definition hsvd_rank (svd : Tensor -> Tensor * list Q) (sqrt : Q -> Q)
    (fuel : nat) (A : pyobj) (maxrank : Z) (full : bool)
    (maxmergedim : option Z) (safetyshift : Z) : option (result hsvd_output) :=
  match hsvd_rank_gate A maxrank full maxmergedim safetyshift with
  | Raise e => Some (Raise e)
  | Ok c =>
      hsvd svd sqrt fuel (call_A c) (call_maxrank c) (call_maxmergedim c)
        (call_rtol c) (call_safetyshift c) (call_no_of_merges c) (call_full c)
  end.

(** ** The gate [hsvd_rtol] *)

(** [A.shape[1]]: the global extent along axis 1. Along the split axis the
    local extents add up; otherwise every process holds the full extent. *)
Definition dnd_shape1 (A : DNDarray) : Z :=
  match split A with
  | Some 1%nat => foldr (fun M acc => (Z.of_nat (shape1 M) + acc)%Z) 0%Z (larrays A)
  | _ => from_option (fun M => Z.of_nat (shape1 M)) 0%Z (head (larrays A))
  end.

(** Everything [hsvd_rtol] does before it calls [hsvd]. The statements run
    in the order of the source, each on the values the previous ones left in
    [maxrank], [maxmergedim] and [no_of_merges]. After them [maxrank] and
    [maxmergedim] are both set, so the last line of the [match] at the end is
    never taken. The derived [maxrank] is a Python integer (the result of
    [floor]); the check of [maxmergedim] against 2 (maxrank + safetyshift) + 1
    meets the tensor [A_local_size] only after the comparison above it has
    shown that 2 (maxrank + safetyshift) fits int64, so it cannot overflow. *)
Definition hsvd_rtol_gate (A : pyobj) (rtol : Q) (full : bool)
    (maxrank maxmergedim : option Z) (safetyshift : Z)
    (no_of_merges : option Z) : result hsvd_call :=
  match A with
  | NotDnd => Raise TypeError
  | Dnd A =>
      if negb (ndim A =? 2)%nat then Raise ValueError
      else if negb (bool_decide (dnd_dtype A = float32))
              && negb (bool_decide (dnd_dtype A = float64))
      then Raise TypeError
      else
        A_local_size ← A_local_size A;
        (* if maxmergedim is not None and maxrank is None *)
        maxrank ←
          match maxmergedim, maxrank with
          | Some _, None =>
              let r := (A_local_size / 2 - safetyshift)%Z in
              if (r <=? 0)%Z then Raise ValueError else Ok (Some r)
          | _, _ => Ok maxrank
          end;
        (* if maxmergedim is None and maxrank is not None *)
        maxmergedim ←
          match maxmergedim, maxrank with
          | None, Some r =>
              ge ← tensor_ge A_local_size (2 * (r + safetyshift))%Z;
              if (ge : bool) then Ok (Some A_local_size)
              else Ok (Some (2 * (r + safetyshift) + 1)%Z)
          | _, _ => Ok maxmergedim
          end;
        (* if both are set and maxmergedim < 2 * (maxrank + safetyshift) + 1 *)
        _ ←
          match maxmergedim, maxrank with
          | Some d, Some r =>
              if (d <? 2 * (r + safetyshift) + 1)%Z
              then Raise ValueError else Ok tt
          | _, _ => Ok tt
          end;
        (* if maxmergedim is None and maxrank is None *)
        let '(no_of_merges, maxmergedim, maxrank) :=
          match maxmergedim, maxrank with
          | None, None =>
              (match no_of_merges with None => Some 2%Z | Some n => Some n end,
               Some (2 * (dnd_shape1 A + safetyshift) + 1)%Z,
               Some (dnd_shape1 A))
          | _, _ => (no_of_merges, maxmergedim, maxrank)
          end in
        (* if no_of_merges is not None and no_of_merges < 2 *)
        _ ←
          match no_of_merges with
          | Some n => if (n <? 2)%Z then Raise ValueError else Ok tt
          | None => Ok tt
          end;
        match maxrank, maxmergedim with
        | Some r, Some d =>
            Ok (mkCall A r d (Some rtol) safetyshift no_of_merges full)
        | _, _ => Raise TypeError
        end
  end.

Definition hsvd_rtol (svd : Tensor -> Tensor * list Q) (sqrt : Q -> Q)
    (fuel : nat) (A : pyobj) (rtol : Q) (full : bool)
    (maxrank maxmergedim : option Z) (safetyshift : Z)
    (no_of_merges : option Z) : option (result hsvd_output) :=
  match hsvd_rtol_gate A rtol full maxrank maxmergedim safetyshift no_of_merges with
  | Raise e => Some (Raise e)
  | Ok c =>
      hsvd svd sqrt fuel (call_A c) (call_maxrank c) (call_maxmergedim c)
        (call_rtol c) (call_safetyshift c) (call_no_of_merges c) (call_full c)
  end.

(** ** A backend instance for running the model

    On a rectangular diagonal matrix with a non-negative, non-increasing
    diagonal the thin SVD is known in closed form: the left factor is the
    leading block of the identity, the singular values are the diagonal, and
    the right factor is the identity. [diag_svd] returns exactly that. *)

Definition unit_column (m i : nat) : list Q :=
  map (fun j => if decide (j = i) then 1 else 0) (seq 0 m).

Definition diagonal (M : Tensor) : list Q :=
  imap (fun i col => nth i col 0) (take (shape0 M) (columns M)).

Definition diag_svd (M : Tensor) : Tensor * list Q :=
  let r := Nat.min (shape0 M) (shape1 M) in
  (mkTensor (dtype_of M) (shape0 M) (map (unit_column (shape0 M)) (seq 0 r)),
   diagonal M).

(** A square root that is exact on the squares of rationals (and rounds both
    terms of the reduced fraction down otherwise). *)
Definition exact_sqrt (q : Q) : Q :=
  let r := Qred q in Z.sqrt (Qnum r) # Pos.sqrt (Qden r).

(** ** The invariant of the scheduling sweep *)

(** Sums over the members of a group. *)
Definition sum_over (g : nat -> Z) (ks : list nat) : Z :=
  foldr (fun k acc => (g k + acc)%Z) 0%Z ks.

Section SweepInvariant.

Variable no_procs : nat.
Variable dims_global : list Z.
Variable maxmergedim : Z.
Variable no_of_merges : option Z.

(** What holds of the variables of the sweep once the first active node
    has been visited; [rest] are the active nodes still to come. Every
    future node is a rank that was visited, every recorded send goes from a
    visited rank to a future node, the widths of a future node and of its
    senders fit under [maxmergedim], and the node and its senders are at
    most [no_of_merges]; for the current future node these two totals are
    bounded by [used_budget] and [counter]. *)
Record sweep_ok (st : sweep_state) (rest : list nat) : Prop := mkSweepOk {
  ok_length : length (send_to st) = no_procs;
  ok_head : head (future_nodes st) = Some 0%nat;
  ok_current : current_future_node st ∈ future_nodes st;
  ok_future : ∀ f, f ∈ future_nodes st → (f < no_procs)%nat ∧ f ∉ rest;
  ok_nodup : NoDup (future_nodes st);
  ok_send : ∀ k f, send_to st !! k = Some (Some f) →
              f ∈ future_nodes st ∧ k ∉ rest;
  ok_width : ∀ f, f ∈ future_nodes st →
    (default 0 (dims_global !! f)
     + sum_over (λ k, default 0 (dims_global !! k))
         (senders_to no_procs (send_to st) f)
     ≤ maxmergedim)%Z;
  ok_width_current :
    (default 0 (dims_global !! current_future_node st)
     + sum_over (λ k, default 0 (dims_global !! k))
         (senders_to no_procs (send_to st) (current_future_node st))
     ≤ used_budget st ≤ maxmergedim)%Z;
  ok_count : ∀ f n, f ∈ future_nodes st → no_of_merges = Some n →
    (1 + sum_over (λ _, 1) (senders_to no_procs (send_to st) f) ≤ n)%Z;
  ok_count_current :
    (1 + sum_over (λ _, 1)
           (senders_to no_procs (send_to st) (current_future_node st))
     ≤ counter st)%Z;
  ok_counter : ∀ n, no_of_merges = Some n → (counter st ≤ n)%Z
}.

End SweepInvariant.

(** ** Quantities used to state what a run in rank mode keeps *)

(** A factor between two passes of a run without tolerance: float32 or
    float64, with at least one and at most maxrank + safetyshift columns. *)
Definition factor_in_range (maxrank safetyshift : Z) (p : proc_state) : Prop :=
  dtype_of (U_loc p) ≠ other_dtype ∧
  (1 ≤ Z.of_nat (shape1 (U_loc p)) ≤ maxrank + safetyshift)%Z.

(** The number of columns of the factor that comes first in the return
    value: U, or V when the input was transposed. *)
Definition output_rank (out : hsvd_output) : nat :=
  match out with
  | Ret_V_sigma_U V _ _ _ | Ret_V V _ => length V
  | Ret_U_sigma_V U _ _ _ | Ret_U U _ => shape1 U
  end.

(** * Properties *)

(** ** The backend instance on the inputs used below

    On each matrix the left factor has orthonormal columns (columns of the
    identity), the singular values do not increase, and the factor scaled by
    the singular values gives the matrix back (the right factor is the
    identity). *)

Example diag_svd_2x2 :
  let M := mkTensor float64 2 [[2; 0]; [0; 1]] in
  diag_svd M = (mkTensor float64 2 [[1; 0]; [0; 1]], [2; 1]) ∧
  scale_columns (diag_svd M).1 (diag_svd M).2 = M.
Proof. split; reflexivity. Qed.

Example diag_svd_3x3 :
  let M := mkTensor float64 3 [[12; 0; 0]; [0; 4; 0]; [0; 0; 3]] in
  diag_svd M = (mkTensor float64 3 [[1; 0; 0]; [0; 1; 0]; [0; 0; 1]], [12; 4; 3]) ∧
  scale_columns (diag_svd M).1 (diag_svd M).2 = M.
Proof. split; reflexivity. Qed.

Example diag_svd_3x2 :
  let M := mkTensor float64 3 [[12; 0; 0]; [0; 4; 0]] in
  diag_svd M = (mkTensor float64 3 [[1; 0; 0]; [0; 1; 0]], [12; 4]) ∧
  scale_columns (diag_svd M).1 (diag_svd M).2 = M.
Proof. split; reflexivity. Qed.

Example exact_sqrt_squares :
  exact_sqrt 1 = 1 ∧ exact_sqrt 25 = 5 ∧ exact_sqrt 169 = 13 ∧ exact_sqrt 0 = 0.
Proof. repeat split. Qed.

(** ** Python sequences *)

Lemma Qlt_bool_iff (x y : Q) : Qlt_bool x y = true ↔ x < y.
Proof.
  unfold Qlt_bool. rewrite negb_true_iff, <- not_true_iff_false, Qle_bool_iff.
  split; [apply Qnot_le_lt | apply Qlt_not_le].
Qed.

Lemma norm_sq_nonneg (l : list Q) : 0 <= norm_sq l.
Proof.
  induction l as [|x l IH]; simpl; [apply Qle_refl|].
  assert (0 <= x * x) by nra. lra.
Qed.

Lemma slice_bound_inside (n : nat) (i : Z) :
  (0 ≤ i ≤ Z.of_nat n)%Z → slice_bound n i = Z.to_nat i.
Proof. intros H. unfold slice_bound. destruct (Z.ltb_spec i 0); lia. Qed.

Lemma length_slice_to {A : Type} (i : Z) (l : list A) :
  (0 ≤ i ≤ Z.of_nat (length l))%Z → length (slice_to i l) = Z.to_nat i.
Proof.
  intros H. unfold slice_to. rewrite length_take, slice_bound_inside by done. lia.
Qed.

Lemma fold_left_min_spec (t : list Z) (x : Z) :
  fold_left Z.min t x ∈ x :: t ∧ ∀ y, y ∈ x :: t → (fold_left Z.min t x ≤ y)%Z.
Proof.
  revert x. induction t as [|z t IH]; intros x; simpl.
  - split; [left|]. intros y Hy. apply list_elem_of_singleton in Hy. lia.
  - destruct (IH (Z.min x z)) as [Hin Hle]. split.
    + apply elem_of_cons in Hin as [Heq|Hin].
      * rewrite Heq. destruct (Z.min_spec x z) as [[_ ->]|[_ ->]];
          [left | right; left].
      * right; right; exact Hin.
    + intros y Hy.
      assert (fold_left Z.min t (Z.min x z) ≤ Z.min x z)%Z as Hm
        by (apply Hle; left).
      apply elem_of_cons in Hy as [->|Hy]; [lia|].
      apply elem_of_cons in Hy as [->|Hy]; [lia|].
      apply Hle. right; exact Hy.
Qed.

Lemma fold_left_max_spec (t : list Z) (x : Z) :
  fold_left Z.max t x ∈ x :: t ∧ ∀ y, y ∈ x :: t → (y ≤ fold_left Z.max t x)%Z.
Proof.
  revert x. induction t as [|z t IH]; intros x; simpl.
  - split; [left|]. intros y Hy. apply list_elem_of_singleton in Hy. lia.
  - destruct (IH (Z.max x z)) as [Hin Hle]. split.
    + apply elem_of_cons in Hin as [Heq|Hin].
      * rewrite Heq. destruct (Z.max_spec x z) as [[_ ->]|[_ ->]];
          [right; left | left].
      * right; right; exact Hin.
    + intros y Hy.
      assert (Z.max x z ≤ fold_left Z.max t (Z.max x z))%Z as Hm
        by (apply Hle; left).
      apply elem_of_cons in Hy as [->|Hy]; [lia|].
      apply elem_of_cons in Hy as [->|Hy]; [lia|].
      apply Hle. right; exact Hy.
Qed.

Lemma py_min_spec (l : list Z) (m : Z) :
  py_min l = Ok m → m ∈ l ∧ ∀ y, y ∈ l → (m ≤ y)%Z.
Proof.
  destruct l as [|x t]; simpl; [discriminate|].
  intros [= <-]. apply fold_left_min_spec.
Qed.

Lemma py_max_spec (l : list Z) (m : Z) :
  py_max l = Ok m → m ∈ l ∧ ∀ y, y ∈ l → (y ≤ m)%Z.
Proof.
  destruct l as [|x t]; simpl; [discriminate|].
  intros [= <-]. apply fold_left_max_spec.
Qed.

Lemma py_min_nonempty (l : list Z) : l ≠ [] → ∃ m, py_min l = Ok m.
Proof. destruct l; [done|]. eauto. Qed.

Lemma py_max_nonempty (l : list Z) : l ≠ [] → ∃ m, py_max l = Ok m.
Proof. destruct l; [done|]. eauto. Qed.

Lemma elem_of_argwhere_from {A : Type} (p : A → bool) (i : Z) (l : list A) (k : Z) :
  k ∈ argwhere_from p i l ↔
  ∃ (n : nat) (x : A), k = (i + Z.of_nat n)%Z ∧ l !! n = Some x ∧ p x = true.
Proof.
  revert i k. induction l as [|a l IH]; intros i k; simpl.
  - split; [intros H; inversion H | intros (n & x & _ & H & _); done].
  - split.
    + intros H.
      assert (k = i ∧ p a = true ∨ k ∈ argwhere_from p (i + 1) l) as [[-> Hpa]|Hk].
      { destruct (p a); [|by right].
        apply elem_of_cons in H as [->|H]; [by left | by right]. }
      * exists 0%nat, a. split; [lia|done].
      * apply IH in Hk as (n & x & -> & Hl & Hp).
        exists (S n), x. split; [lia|done].
    + intros (n & x & -> & Hl & Hp). destruct n as [|n]; simpl in Hl.
      * injection Hl as ->. rewrite Hp.
        replace (i + Z.of_nat 0)%Z with i by lia. left.
      * assert ((i + Z.of_nat (S n))%Z ∈ argwhere_from p (i + 1) l) as Hin.
        { apply IH. exists n, x. split; [lia|done]. }
        destruct (p a); [right|]; done.
Qed.

Lemma elem_of_argwhere {A : Type} (p : A → bool) (l : list A) (k : Z) :
  k ∈ argwhere p l ↔ ∃ (n : nat) (x : A), k = Z.of_nat n ∧ l !! n = Some x ∧ p x = true.
Proof. unfold argwhere. rewrite elem_of_argwhere_from. naive_solver. Qed.

Lemma lookup_range (n i : nat) : (i < n)%nat → range n !! i = Some (Z.of_nat i).
Proof.
  intros H. unfold range. rewrite list_lookup_fmap, lookup_seq_lt by done. done.
Qed.

Lemma lookup_tail_norms (sigma : list Q) (n : nat) :
  (n ≤ length sigma)%nat →
  tail_norms sigma !! n = Some (norm_sq (slice_from (Z.of_nat n) sigma)).
Proof.
  intros H. unfold tail_norms. rewrite list_lookup_fmap, lookup_range by lia. done.
Qed.

Lemma lookup_tail_norms_inv (sigma : list Q) (n : nat) (t : Q) :
  tail_norms sigma !! n = Some t →
  (n ≤ length sigma)%nat ∧ t = norm_sq (slice_from (Z.of_nat n) sigma).
Proof.
  intros H. assert (n < length (tail_norms sigma))%nat as Hlt
    by (eapply lookup_lt_Some; eauto).
  unfold tail_norms in Hlt. rewrite length_map in Hlt. unfold range in Hlt.
  rewrite length_map, length_seq in Hlt.
  rewrite lookup_tail_norms in H by lia. split; [lia | congruence].
Qed.

Lemma slice_from_length {A : Type} (l : list A) :
  slice_from (Z.of_nat (length l)) l = [].
Proof.
  unfold slice_from. rewrite slice_bound_inside by lia.
  rewrite Nat2Z.id. apply drop_all.
Qed.

(** The tolerance rank, when the search succeeds, is the least position of
    [0 .. c] whose tail is below the squared tolerance. *)
Lemma ideal_trunc_rank_spec (sigma : list Q) (tol : Q) (k : Z) :
  ideal_trunc_rank sigma tol = Ok k →
  (0 ≤ k ≤ Z.of_nat (length sigma))%Z ∧
  norm_sq (slice_from k sigma) < tol * tol ∧
  ∀ j, (0 ≤ j < k)%Z → ¬ norm_sq (slice_from j sigma) < tol * tol.
Proof.
  unfold ideal_trunc_rank. intros H. apply py_min_spec in H as [Hin Hmin].
  apply elem_of_argwhere in Hin as (n & t & -> & Hl & Hp).
  apply lookup_tail_norms_inv in Hl as [Hn ->]. apply Qlt_bool_iff in Hp.
  split; [lia|]. split; [done|].
  intros j Hj Hlt.
  assert (Z.of_nat (Z.to_nat j) ∈
          argwhere (λ t, Qlt_bool t (tol * tol)) (tail_norms sigma)) as Hj'.
  { apply elem_of_argwhere. eexists _, _. split; [done|].
    rewrite lookup_tail_norms by lia. split; [done|].
    apply Qlt_bool_iff. rewrite Z2Nat.id by lia. done. }
  apply Hmin in Hj'. lia.
Qed.

(** The search succeeds exactly when the tolerance is not zero: the empty
    tail at position [c] has norm [0]. *)
Lemma ideal_trunc_rank_succeeds (sigma : list Q) (tol : Q) :
  ¬ tol == 0 → ∃ k, ideal_trunc_rank sigma tol = Ok k.
Proof.
  intros Htol. apply py_min_nonempty. intros Hnil.
  assert (Z.of_nat (length sigma) ∈
          argwhere (λ t, Qlt_bool t (tol * tol)) (tail_norms sigma)) as Hin.
  { apply elem_of_argwhere. eexists _, _. split; [done|].
    rewrite lookup_tail_norms by lia. split; [done|].
    apply Qlt_bool_iff. rewrite slice_from_length. simpl. nra. }
  rewrite Hnil in Hin. inversion Hin.
Qed.

(** ** The local truncation *)

Lemma argwhere_nil {A : Type} (p : A → bool) (l : list A) :
  (∀ x, x ∈ l → p x = false) → argwhere p l = [].
Proof.
  intros H. destruct (argwhere p l) as [|k t] eqn:E; [done|].
  assert (k ∈ argwhere p l) as Hk by (rewrite E; left).
  apply elem_of_argwhere in Hk as (n & x & _ & Hl & Hp).
  rewrite H in Hp; [done|]. eapply list_elem_of_lookup_2; eauto.
Qed.

Lemma no_noise_idx_range (eps : Q) (sigma : list Q) (k : Z) :
  k ∈ no_noise_idx eps sigma → (0 ≤ k < Z.of_nat (length sigma))%Z.
Proof.
  intros H. apply elem_of_argwhere in H as (n & x & -> & Hl & _).
  apply lookup_lt_Some in Hl. lia.
Qed.

Lemma base_rank_bounds (sigma : list Q) (maxrank : Z) (loctol : option Q)
    (cut b : Z) :
  base_rank sigma maxrank loctol cut = Ok b →
  (0 ≤ maxrank)%Z → (0 ≤ cut)%Z → (0 ≤ b ≤ maxrank)%Z.
Proof.
  unfold base_rank. destruct loctol as [tol|].
  - destruct (ideal_trunc_rank sigma tol) as [k|e] eqn:E; simpl; [|discriminate].
    intros [= <-] ? ?. apply ideal_trunc_rank_spec in E as [? _]. lia.
  - intros [= <-] ? ?. lia.
Qed.

Section LocalTruncationFacts.

Variable svd : Tensor → Tensor * list Q.
Variables level proc_id : nat.

(** The result of the routine on the branch that truncates. *)
Lemma compute_local_truncated_svd_truncates (M U_f : Tensor) (sigma_f : list Q)
    (maxrank : Z) (loctol : option Q) (safetyshift : Z) (eps : Q) (mx b : Z) :
  svd M = (U_f, sigma_f) →
  noiselevel_of (dtype_of U_f) = Ok eps →
  py_max (no_noise_idx eps sigma_f) = Ok mx →
  base_rank sigma_f maxrank loctol (mx + 1) = Ok b →
  let r := Z.min (Z.of_nat (length sigma_f)) (b + safetyshift) in
  compute_local_truncated_svd svd level proc_id M maxrank loctol safetyshift
  = Ok (cols_to r U_f, slice_to r sigma_f,
        norm_sq (slice_from (r - safetyshift) sigma_f)).
Proof.
  intros Hsvd Heps Hmx Hb r. unfold compute_local_truncated_svd.
  rewrite Hsvd, Heps. simpl.
  destruct (decide (length (no_noise_idx eps sigma_f) ≠ 0%nat)) as [_|Hz].
  - rewrite Hmx. simpl. rewrite Hb. reflexivity.
  - destruct (no_noise_idx eps sigma_f); [discriminate Hmx|].
    exfalso. apply Hz. discriminate.
Qed.

(** When the shifted rank stays within the number of singular values, the
    reported error is the tail that starts at the base rank. *)
Lemma compute_local_truncated_svd_error_tail (M U_f : Tensor)
    (sigma_f : list Q) (maxrank : Z) (loctol : option Q) (safetyshift : Z)
    (eps : Q) (mx b : Z) :
  svd M = (U_f, sigma_f) →
  noiselevel_of (dtype_of U_f) = Ok eps →
  py_max (no_noise_idx eps sigma_f) = Ok mx →
  base_rank sigma_f maxrank loctol (mx + 1) = Ok b →
  (b + safetyshift ≤ Z.of_nat (length sigma_f))%Z →
  ∃ U sigma,
    compute_local_truncated_svd svd level proc_id M maxrank loctol safetyshift
    = Ok (U, sigma, norm_sq (slice_from b sigma_f)).
Proof.
  intros Hsvd Heps Hmx Hb Hle.
  rewrite (compute_local_truncated_svd_truncates _ _ _ _ _ _ _ _ _
             Hsvd Heps Hmx Hb).
  rewrite Z.min_r by lia. replace (b + safetyshift - safetyshift)%Z with b by lia.
  eauto.
Qed.

(** C6: when no singular value reaches the noise level (1e-14 for float64,
    1e-7 for float32), the routine returns without raising the zero factor
    of shape (m, 1), the singular values [0], and as error the squared norm
    of all singular values, whatever the rank cap, the tolerance and the
    safety shift are. *)
Theorem compute_local_truncated_svd_all_noise (M U_f : Tensor)
    (sigma_f : list Q) (maxrank : Z) (loctol : option Q) (safetyshift : Z)
    (eps : Q) :
  svd M = (U_f, sigma_f) →
  shape0 U_f = shape0 M →
  (dtype_of U_f = float64 ∧ eps = 1 # 100000000000000) ∨
  (dtype_of U_f = float32 ∧ eps = 1 # 10000000) →
  (∀ s, s ∈ sigma_f → s < eps) →
  compute_local_truncated_svd svd level proc_id M maxrank loctol safetyshift
  = Ok (mkTensor (dtype_of U_f) (shape0 M) [replicate (shape0 M) 0], [0],
        norm_sq sigma_f).
Proof.
  intros Hsvd Hm Hd Hnoise. unfold compute_local_truncated_svd. rewrite Hsvd.
  assert (noiselevel_of (dtype_of U_f) = Ok eps) as ->
    by (destruct Hd as [[-> ->]|[-> ->]]; reflexivity).
  simpl. unfold no_noise_idx. rewrite argwhere_nil.
  - simpl. unfold zeros. rewrite Hm. reflexivity.
  - intros s Hs. apply not_true_iff_false. rewrite Qle_bool_iff.
    apply Qlt_not_le, Hnoise, Hs.
Qed.


End LocalTruncationFacts.

Lemma compute_local_truncated_svd_all_noise_witness :
  let M := mkTensor float64 1 [[1 # 100000000000000000000]] in
  (∀ s, s ∈ [1 # 100000000000000000000] → s < 1 # 100000000000000) ∧
  compute_local_truncated_svd diag_svd 0 0 M 1 None 5
  = Ok (mkTensor float64 1 [[0]], [0], norm_sq [1 # 100000000000000000000]).
Proof.
  assert (∀ s, s ∈ [1 # 100000000000000000000] → s < 1 # 100000000000000) as H.
  { intros s Hs. apply list_elem_of_singleton in Hs. subst s. reflexivity. }
  split; [exact H|].
  apply (compute_local_truncated_svd_all_noise diag_svd 0 0
           (mkTensor float64 1 [[1 # 100000000000000000000]])
           (mkTensor float64 1 [[1]]) [1 # 100000000000000000000]
           1 None 5 (1 # 100000000000000)).
  - reflexivity.
  - reflexivity.
  - left. split; reflexivity.
  - exact H.
Defined.


(** C1: the reported error is the tail at [loc_trunc_rank - safetyshift],
    taken after [loc_trunc_rank] was clipped to the number of singular
    values. With singular values [2; 1], rank cap 1 and safety shift 2 the
    base rank is 1 and the tail from there has squared norm 1, but the
    routine reports 5, the squared norm of all singular values. With
    singular values [3; 2; 1], rank cap 2 and safety shift 5 the base rank is
    2 and the tail from there has squared norm 1, but the start 3 - 5 = -2
    counts from the end and the routine reports 5. *)
Theorem clamped_safetyshift_error_tail :
  let M := mkTensor float64 2 [[2; 0]; [0; 1]] in
  let M' := mkTensor float64 3 [[3; 0; 0]; [0; 2; 0]; [0; 0; 1]] in
  (py_max (no_noise_idx (1 # 100000000000000) [2; 1]) = Ok 1%Z ∧
   base_rank [2; 1] 1 None (1 + 1) = Ok 1%Z ∧
   norm_sq (slice_from 1 [2; 1]) = 1 ∧
   compute_local_truncated_svd diag_svd 0 0 M 1 None 2
   = Ok (mkTensor float64 2 [[1; 0]; [0; 1]], [2; 1], 5)) ∧
  (py_max (no_noise_idx (1 # 100000000000000) [3; 2; 1]) = Ok 2%Z ∧
   base_rank [3; 2; 1] 2 None (2 + 1) = Ok 2%Z ∧
   norm_sq (slice_from 2 [3; 2; 1]) = 1 ∧
   compute_local_truncated_svd diag_svd 0 0 M' 2 None 5
   = Ok (mkTensor float64 3 [[1; 0; 0]; [0; 1; 0]; [0; 0; 1]], [3; 2; 1], 5)) ∧
  ¬ 5 == 1.
Proof. repeat split. intros H; discriminate H. Qed.

(** For a tolerance other than zero the search succeeds, and its answer is
    the least [k] in [0 .. c] whose tail [sigma[k:]] has squared norm below
    the squared tolerance; [k = c] qualifies, so the answer is at most [c]. *)
Lemma ideal_trunc_rank_least (sigma : list Q) (tol : Q) :
  ¬ tol == 0 →
  ∃ k, ideal_trunc_rank sigma tol = Ok k ∧
       (0 ≤ k ≤ Z.of_nat (length sigma))%Z ∧
       norm_sq (slice_from k sigma) < tol * tol ∧
       ∀ j, (0 ≤ j < k)%Z → ¬ norm_sq (slice_from j sigma) < tol * tol.
Proof.
  intros Htol. destruct (ideal_trunc_rank_succeeds sigma tol Htol) as [k Hk].
  exists k. split; [exact Hk|]. by apply ideal_trunc_rank_spec.
Qed.

(** C7: the search for the tolerance rank has no default. It takes [min] of
    the indices [k] in [0 .. c] whose tail is below the squared tolerance,
    and with a tolerance of zero there is none: for the singular values [1]
    the tails are [1; 0], none is below 0, and [min] of the empty result
    raises ValueError where the answer c = 1 is expected. The routine raises
    with it, and so does [hsvd_rtol] called with rtol = 0 and every other
    argument at its default on the 1 x 1 array [[1]] held by one process:
    the gate sets maxrank 1, maxmergedim 13 and no_of_merges 2, the norm is
    1 and loctol is 0. *)
Theorem ideal_trunc_rank_zero_tolerance_raises :
  let A := mkDND 2 float64 (Some 1%nat) [mkTensor float64 1 [[1]]] in
  tail_norms [1] = [1; 0] ∧
  argwhere (λ t, Qlt_bool t (0 * 0)) (tail_norms [1]) = [] ∧
  ideal_trunc_rank [1] 0 = Raise ValueError ∧
  ideal_trunc_rank [1] 0 ≠ Ok 1%Z ∧
  compute_local_truncated_svd diag_svd 0 0 (mkTensor float64 1 [[1]]) 1 (Some 0) 5
  = Raise ValueError ∧
  hsvd_rtol_gate (Dnd A) 0 false None None 5 None
  = Ok (mkCall A 1 13 (Some 0) 5 (Some 2%Z) false) ∧
  loctol_of exact_sqrt 1 (Some 0) 1 = Some 0 ∧
  hsvd_rtol diag_svd exact_sqrt 1 (Dnd A) 0 false None None 5 None
  = Some (Raise ValueError).
Proof. repeat split; try reflexivity. discriminate. Qed.

Open Scope Z_scope.

(** ** The scheduling sweep *)

Lemma width_sum_sum_over (dims : list Z) (ks : list nat) :
  width_sum dims ks = sum_over (λ k, default 0 (dims !! k)) ks.
Proof. reflexivity. Qed.

Lemma length_sum_over (ks : list nat) :
  Z.of_nat (length ks) = sum_over (λ _, 1) ks.
Proof. induction ks as [|k ks IH]; simpl; lia. Qed.

Lemma filter_agree {A : Type} (P P' : A → Prop)
    `{!∀ x, Decision (P x)} `{!∀ x, Decision (P' x)} (l : list A) :
  (∀ x, x ∈ l → (P' x ↔ P x)) → filter P' l = filter P l.
Proof.
  induction l as [|a l IH]; intros Hag; [done|].
  rewrite !filter_cons.
  rewrite IH by (intros x Hx; apply Hag; by right).
  assert (P' a ↔ P a) as Ha by (apply Hag; left).
  destruct (decide (P' a)), (decide (P a)); tauto.
Qed.

Lemma filter_none {A : Type} (P : A → Prop) `{!∀ x, Decision (P x)} (l : list A) :
  (∀ x, x ∈ l → ¬ P x) → filter P l = [].
Proof.
  induction l as [|a l IH]; intros Hno; [done|].
  rewrite filter_cons, decide_False by (apply Hno; left).
  apply IH. intros x Hx. apply Hno. by right.
Qed.

Lemma sum_over_filter_add (g : nat → Z) (P P' : nat → Prop)
    `{!∀ x, Decision (P x)} `{!∀ x, Decision (P' x)} (l : list nat) (c : nat) :
  NoDup l → c ∈ l →
  (∀ k, k ≠ c → (P' k ↔ P k)) → ¬ P c → P' c →
  sum_over g (filter P' l) = sum_over g (filter P l) + g c.
Proof.
  intros Hnd Hin Hagree Hc Hc'. induction l as [|a l IH]; [inversion Hin|].
  apply NoDup_cons in Hnd as [Ha Hnd]. rewrite !filter_cons.
  destruct (decide (a = c)) as [->|Hne].
  - rewrite decide_True by done. rewrite (decide_False (P:=P c)) by done.
    simpl. rewrite (filter_agree P P'); [lia|].
    intros x Hx. apply Hagree. intros ->. done.
  - apply elem_of_cons in Hin as [->|Hin]; [done|].
    specialize (IH Hnd Hin).
    destruct (decide (P' a)) as [Hp|Hp], (decide (P a)) as [Hq|Hq]; simpl.
    + lia.
    + apply Hagree in Hp; done.
    + apply Hagree in Hq; done.
    + lia.
Qed.

Section Sweep.

Variable no_procs : nat.
Variable dims_global : list Z.
Variable maxmergedim : Z.
Variable no_of_merges : option Z.

(** The first future node is rank 0 whatever the widths are. *)
Lemma sweep_body_head (st st' : sweep_state) (c : nat) :
  sweep_body dims_global maxmergedim no_of_merges st c = Ok st' →
  head (future_nodes st) = Some 0%nat → head (future_nodes st') = Some 0%nat.
Proof.
  unfold sweep_body, list_get, list_set. intros H Hh.
  destruct (dims_global !! c) as [d|]; simpl in H; [|discriminate].
  destruct (_ || _).
  - injection H as <-. simpl. destruct (future_nodes st); [done|]. exact Hh.
  - destruct (negb _); [destruct (decide _)|]; simpl in H;
      try discriminate; injection H as <-; exact Hh.
Qed.

Lemma for_each_body_head (active : list nat) (st st' : sweep_state) :
  for_each (sweep_body dims_global maxmergedim no_of_merges) active st = Ok st' →
  head (future_nodes st) = Some 0%nat → head (future_nodes st') = Some 0%nat.
Proof.
  revert st. induction active as [|c rest IH]; intros st; simpl.
  - by intros [= <-].
  - destruct (sweep_body dims_global maxmergedim no_of_merges st c)
      as [st1|] eqn:E; simpl; [|discriminate].
    intros H Hh. eapply IH; [exact H|]. eapply sweep_body_head; eauto.
Qed.

Lemma sweep_head (active : list nat) (st : sweep_state) :
  sweep no_procs dims_global maxmergedim no_of_merges active = Ok st →
  head (future_nodes st) = Some 0%nat.
Proof. intros H. eapply for_each_body_head; [exact H|]. reflexivity. Qed.

Hypothesis Hlen : length dims_global = no_procs.
Hypothesis Hdims : ∀ k d, dims_global !! k = Some d → 0 ≤ d ≤ maxmergedim.
Hypothesis Hnom : ∀ n, no_of_merges = Some n → 2 ≤ n.

Lemma senders_unsent (st : sweep_state) (rest : list nat) (c : nat) :
  sweep_ok no_procs dims_global maxmergedim no_of_merges st rest →
  c ∉ future_nodes st → senders_to no_procs (send_to st) c = [].
Proof.
  intros Hok Hc. unfold senders_to. apply filter_none.
  intros k _ Hk. apply (ok_send _ _ _ _ _ _ Hok) in Hk as [Hk _]. done.
Qed.

Lemma senders_insert_other (s : list (option nat)) (c cur f : nat) :
  f ≠ cur → s !! c ≠ Some (Some f) →
  senders_to no_procs (<[c:=Some cur]> s) f = senders_to no_procs s f.
Proof.
  intros Hf Hc. unfold senders_to. apply filter_agree. intros k _.
  destruct (decide (k = c)) as [->|Hk].
  - split; [|done]. intros H.
    destruct (decide (c < length s)%nat).
    + rewrite list_lookup_insert_eq in H by done. congruence.
    + rewrite list_insert_ge in H by lia. done.
  - by rewrite list_lookup_insert_ne.
Qed.

Lemma senders_insert_current (g : nat → Z) (s : list (option nat)) (c cur : nat) :
  length s = no_procs → (c < no_procs)%nat → s !! c ≠ Some (Some cur) →
  sum_over g (senders_to no_procs (<[c:=Some cur]> s) cur)
  = sum_over g (senders_to no_procs s cur) + g c.
Proof.
  intros Hs Hc Hsc. unfold senders_to. apply sum_over_filter_add.
  - apply NoDup_seq.
  - apply elem_of_seq. lia.
  - intros k Hk. by rewrite list_lookup_insert_ne.
  - done.
  - apply list_lookup_insert_eq. lia.
Qed.

(** One step of the sweep keeps the invariant. *)
Lemma sweep_body_ok (st : sweep_state) (c : nat) (rest : list nat) :
  sweep_ok no_procs dims_global maxmergedim no_of_merges st (c :: rest) →
  NoDup (c :: rest) → (c < no_procs)%nat →
  ∃ st', sweep_body dims_global maxmergedim no_of_merges st c = Ok st' ∧
         sweep_ok no_procs dims_global maxmergedim no_of_merges st' rest.
Proof.
  intros Hok Hnd Hc. apply NoDup_cons in Hnd as [Hcr Hnd].
  destruct (lookup_lt_is_Some_2 dims_global c) as [d Hd]; [lia|].
  pose proof (Hdims _ _ Hd) as Hdr.
  assert (default 0 (dims_global !! c) = d) as Hwc by (by rewrite Hd).
  assert (c ∉ future_nodes st) as Hcf.
  { intros Hin. apply (ok_future _ _ _ _ _ _ Hok) in Hin as [_ Hin]. apply Hin. left. }
  assert (∀ f, send_to st !! c ≠ Some (Some f)) as Hunsent.
  { intros f Hf. apply (ok_send _ _ _ _ _ _ Hok) in Hf as [_ Hf]. apply Hf. left. }
  destruct Hok as [Hl Hh Hcur Hfut Hndf Hsend Hw Hwcur Hcnt Hccur Hctr].
  unfold sweep_body, list_get. rewrite Hd. simpl.
  destruct (_ || _) eqn:Hcond.
  - (* a new group starts at [c] *)
    eexists. split; [reflexivity|].
    assert (senders_to no_procs (send_to st) c = []) as Hempty.
    { eapply (senders_unsent st (c :: rest)); [by constructor | done]. }
    constructor; simpl.
    + done.
    + destruct (future_nodes st); [done | exact Hh].
    + apply elem_of_app. right. left.
    + intros f Hf. apply elem_of_app in Hf as [Hf|Hf].
      * destruct (Hfut f Hf) as [? Hn]. split; [done|].
        intros ?. apply Hn. by right.
      * apply list_elem_of_singleton in Hf as ->. done.
    + apply NoDup_app. split; [done|]. split; [|apply NoDup_singleton].
      intros x Hx Hx'. apply list_elem_of_singleton in Hx' as ->. done.
    + intros k f Hk. destruct (Hsend k f Hk) as [? Hn].
      split; [apply elem_of_app; by left|]. intros ?. apply Hn. by right.
    + intros f Hf. apply elem_of_app in Hf as [Hf|Hf]; [by apply Hw|].
      apply list_elem_of_singleton in Hf as ->. rewrite Hempty. simpl. lia.
    + rewrite Hempty. simpl. lia.
    + intros f n Hf Hn. apply elem_of_app in Hf as [Hf|Hf]; [by eapply Hcnt|].
      apply list_elem_of_singleton in Hf as ->. rewrite Hempty. simpl.
      specialize (Hnom n Hn). lia.
    + rewrite Hempty. simpl. lia.
    + intros n Hn. specialize (Hnom n Hn). lia.
  - (* [c] joins the current group *)
    apply orb_false_iff in Hcond as [Hfit Hhit].
    rewrite Z.gtb_ltb in Hfit. apply Z.ltb_ge in Hfit.
    assert (∀ n, no_of_merges = Some n → counter st + 1 ≤ n) as Hctr'.
    { intros n Hn. specialize (Hctr n Hn). unfold counter_hit in Hhit.
      rewrite Hn in Hhit. apply Z.eqb_neq in Hhit. lia. }
    destruct (used_budget st =? 0) eqn:Hused; simpl.
    + (* nothing counted yet: no send is recorded *)
      apply Z.eqb_eq in Hused.
      eexists. split; [reflexivity|]. constructor; simpl; try done.
      * intros f Hf. destruct (Hfut f Hf) as [? Hn]. split; [done|].
        intros ?. apply Hn. by right.
      * intros k f Hk. destruct (Hsend k f Hk) as [? Hn]. split; [done|].
        intros ?. apply Hn. by right.
      * lia.
      * lia.
    + unfold list_set. rewrite decide_True by lia. simpl.
      eexists. split; [reflexivity|].
      set (cur := current_future_node st) in *.
      assert (∀ g, sum_over g (senders_to no_procs (<[c:=Some cur]> (send_to st)) cur)
                   = sum_over g (senders_to no_procs (send_to st) cur) + g c) as Hins.
      { intros g. apply senders_insert_current; [done..|apply Hunsent]. }
      constructor; simpl.
      * by rewrite length_insert.
      * done.
      * done.
      * intros f Hf. destruct (Hfut f Hf) as [? Hn]. split; [done|].
        intros ?. apply Hn. by right.
      * done.
      * intros k f Hk. destruct (decide (k = c)) as [->|Hkc].
        { rewrite list_lookup_insert_eq in Hk by lia.
          injection Hk as <-. done. }
        rewrite list_lookup_insert_ne in Hk by done.
        destruct (Hsend k f Hk) as [? Hn]. split; [done|].
        intros ?. apply Hn. by right.
      * intros f Hf. destruct (decide (f = cur)) as [->|Hfc].
        { rewrite Hins. lia. }
        rewrite senders_insert_other by (done || apply Hunsent). by apply Hw.
      * rewrite Hins. lia.
      * intros f n Hf Hn. destruct (decide (f = cur)) as [->|Hfc].
        { rewrite Hins. specialize (Hctr' n Hn). lia. }
        rewrite senders_insert_other by (done || apply Hunsent). by eapply Hcnt.
      * rewrite Hins. lia.
      * done.
Qed.

Lemma for_each_body_ok (rest : list nat) (st : sweep_state) :
  sweep_ok no_procs dims_global maxmergedim no_of_merges st rest →
  NoDup rest → Forall (λ k, (k < no_procs)%nat) rest →
  ∃ st', for_each (sweep_body dims_global maxmergedim no_of_merges) rest st = Ok st' ∧
         sweep_ok no_procs dims_global maxmergedim no_of_merges st' [].
Proof.
  revert st. induction rest as [|c rest IH]; intros st Hok Hnd Hall; simpl.
  - eauto.
  - apply Forall_cons in Hall as [Hc Hall].
    destruct (sweep_body_ok st c rest Hok Hnd Hc) as (st1 & -> & Hok1). simpl.
    apply IH; [done| |done]. by apply NoDup_cons in Hnd as [_ ?].
Qed.

(** The whole sweep over an active set that starts with rank 0. *)
Lemma sweep_ok_final (active : list nat) :
  head active = Some 0%nat → NoDup active →
  Forall (λ k, (k < no_procs)%nat) active →
  ∃ st, sweep no_procs dims_global maxmergedim no_of_merges active = Ok st
        ∧ sweep_ok no_procs dims_global maxmergedim no_of_merges st [].
Proof.
  intros Hh Hnd Hall. destruct active as [|c rest]; [done|].
  injection Hh as ->. unfold sweep. simpl.
  pose proof Hall as Hall'. apply Forall_cons in Hall' as [H0 Hrest].
  pose proof Hnd as Hnd'. apply NoDup_cons in Hnd' as [H0r Hndr].
  destruct (lookup_lt_is_Some_2 dims_global 0%nat) as [d Hd]; [lia|].
  pose proof (Hdims _ _ Hd) as Hdr.
  unfold sweep_body at 2, list_get. rewrite Hd. simpl.
  assert ((0 + d >? maxmergedim) = false) as ->
    by (rewrite Z.gtb_ltb; apply Z.ltb_ge; lia).
  assert (counter_hit 0 no_of_merges = false) as ->.
  { unfold counter_hit. destruct no_of_merges as [n|] eqn:E; [|done].
    specialize (Hnom n eq_refl). apply Z.eqb_neq. lia. }
  simpl. apply for_each_body_ok; [|done..].
  assert (∀ f, senders_to no_procs (replicate no_procs None) f = []) as Hnone.
  { intros f. unfold senders_to. apply filter_none.
    intros k _ Hk. apply lookup_replicate in Hk as [? _]. done. }
  constructor; simpl.
  - apply length_replicate.
  - done.
  - left.
  - intros f Hf. apply list_elem_of_singleton in Hf as ->. done.
  - apply NoDup_singleton.
  - intros k f Hk. apply lookup_replicate in Hk as [? _]. done.
  - intros f Hf. apply list_elem_of_singleton in Hf as ->.
    rewrite Hnone, Hd. simpl. lia.
  - rewrite Hnone, Hd. simpl. lia.
  - intros f n Hf Hn. rewrite Hnone. simpl. specialize (Hnom n Hn). lia.
  - rewrite Hnone. simpl. lia.
  - intros n Hn. specialize (Hnom n Hn). lia.
Qed.

End Sweep.

Lemma for_each_list_set {A : Type} (val : nat → A) (fs : list nat) (rf0 : list A) :
  Forall (λ f, (f < length rf0)%nat) fs →
  ∃ rf, for_each (λ rf i, list_set rf i (val i)) fs rf0 = Ok rf ∧
        length rf = length rf0 ∧
        ∀ f, rf !! f = if decide (f ∈ fs)
                       then (if decide (f < length rf0)%nat then Some (val f) else None)
                       else rf0 !! f.
Proof.
  revert rf0. induction fs as [|i fs IH]; intros rf0 Hall; cbn [for_each].
  - exists rf0. split; [done|]. split; [done|]. intros f.
    destruct (decide (f ∈ [])) as [Hf|_]; [by apply elem_of_nil in Hf | done].
  - apply Forall_cons in Hall as [Hi Hall].
    unfold list_set at 2. rewrite decide_True by done. cbn [mbind result_bind].
    destruct (IH (<[i:=val i]> rf0)) as (rf & -> & Hlen & Hrf).
    { by rewrite length_insert. }
    rewrite length_insert in Hlen. exists rf. split; [done|]. split; [done|].
    intros f. rewrite Hrf, length_insert.
    destruct (decide (f ∈ fs)) as [Hf|Hf].
    + rewrite (decide_True (P:=f ∈ i :: fs)) by (by right). done.
    + destruct (decide (f = i)) as [->|Hfi].
      * rewrite (decide_True (P:=i ∈ i :: fs)) by left.
        rewrite decide_True by done. by apply list_lookup_insert_eq.
      * rewrite (decide_False (P:=f ∈ i :: fs))
          by (intros [?|?]%elem_of_cons; done).
        by apply list_lookup_insert_ne.
Qed.

Lemma build_recv_from_spec (no_procs : nat) (future : list nat)
    (send_to : list (option nat)) :
  Forall (λ f, (f < no_procs)%nat) future →
  ∃ rf, build_recv_from no_procs future send_to = Ok rf ∧
        ∀ f, f ∈ future → rf !! f = Some (senders_to no_procs send_to f).
Proof.
  intros Hall. unfold build_recv_from.
  destruct (for_each_list_set (senders_to no_procs send_to) future
              (replicate no_procs [])) as (rf & Hrf & _ & Hlook).
  { by rewrite length_replicate. }
  exists rf. split; [exact Hrf|]. intros f Hf.
  rewrite Hlook, length_replicate.
  rewrite (decide_True (P:=f ∈ future)) by done.
  rewrite decide_True; [done|]. by eapply Forall_forall in Hall.
Qed.

(** The active set of level 0. *)
Lemma initial_active_set (no_procs : nat) :
  (1 ≤ no_procs)%nat →
  head (seq 0 no_procs) = Some 0%nat ∧
  NoDup (seq 0 no_procs) ∧
  Forall (λ k, (k < no_procs)%nat) (seq 0 no_procs).
Proof.
  intros H. split; [by destruct no_procs; [lia|]|].
  split; [apply NoDup_seq|]. apply Forall_forall. intros k Hk.
  apply elem_of_seq in Hk. lia.
Qed.

(** The future nodes of a plan are an active set for the next level. *)
Lemma schedule_keeps_active_set (no_procs : nat) (dims_global : list Z)
    (maxmergedim : Z) (no_of_merges : option Z) (active_nodes : list nat)
    (pl : plan) :
  length dims_global = no_procs →
  Forall (λ d, 0 ≤ d ≤ maxmergedim) dims_global →
  (∀ n, no_of_merges = Some n → 2 ≤ n) →
  head active_nodes = Some 0%nat →
  NoDup active_nodes →
  Forall (λ k, (k < no_procs)%nat) active_nodes →
  schedule no_procs dims_global maxmergedim no_of_merges active_nodes = Ok pl →
  head (plan_future pl) = Some 0%nat ∧
  NoDup (plan_future pl) ∧
  Forall (λ k, (k < no_procs)%nat) (plan_future pl).
Proof.
  intros Hlen Hdims Hnom Hhead Hnd Hall Hpl.
  assert (∀ k d, dims_global !! k = Some d → 0 ≤ d ≤ maxmergedim) as Hdims'.
  { intros k d Hk. eapply Forall_forall in Hdims; [exact Hdims|].
    eapply list_elem_of_lookup_2; eauto. }
  destruct (sweep_ok_final no_procs dims_global maxmergedim no_of_merges
              Hlen Hdims' Hnom active_nodes Hhead Hnd Hall) as (st & Hst & Hok).
  unfold schedule in Hpl. rewrite Hst in Hpl. simpl in Hpl.
  destruct (build_recv_from _ _ _); simpl in Hpl; [|discriminate].
  injection Hpl as <-. simpl.
  split; [apply (ok_head _ _ _ _ _ _ Hok)|].
  split; [apply (ok_nodup _ _ _ _ _ _ Hok)|].
  apply Forall_forall. intros f Hf. by apply (ok_future _ _ _ _ _ _ Hok).
Qed.

(** C5: on an active set that starts with rank 0 and names each rank once,
    with every width between 0 and [maxmergedim] and [no_of_merges] unset or
    at least 2, the plan of the level exists, and for every future node the
    widths of the node and of the ranks it receives from add up to at most
    [maxmergedim], and the node with those ranks are at most [no_of_merges]
    when that is set. The future nodes are again such an active set. *)
Theorem schedule_respects_caps (no_procs : nat) (dims_global : list Z)
    (maxmergedim : Z) (no_of_merges : option Z) (active_nodes : list nat) :
  length dims_global = no_procs →
  Forall (λ d, 0 ≤ d ≤ maxmergedim) dims_global →
  (∀ n, no_of_merges = Some n → 2 ≤ n) →
  head active_nodes = Some 0%nat →
  NoDup active_nodes →
  Forall (λ k, (k < no_procs)%nat) active_nodes →
  ∃ pl,
    schedule no_procs dims_global maxmergedim no_of_merges active_nodes = Ok pl ∧
    (∀ f, f ∈ plan_future pl →
       ∃ children,
         plan_recv_from pl !! f = Some children ∧
         default 0 (dims_global !! f) + width_sum dims_global children ≤ maxmergedim ∧
         ∀ n, no_of_merges = Some n → 1 + Z.of_nat (length children) ≤ n) ∧
    head (plan_future pl) = Some 0%nat ∧
    NoDup (plan_future pl) ∧
    Forall (λ k, (k < no_procs)%nat) (plan_future pl).
Proof.
  intros Hlen Hdims Hnom Hhead Hnd Hall.
  assert (∀ k d, dims_global !! k = Some d → 0 ≤ d ≤ maxmergedim) as Hdims'.
  { intros k d Hk. eapply Forall_forall in Hdims; [exact Hdims|].
    eapply list_elem_of_lookup_2; eauto. }
  destruct (sweep_ok_final no_procs dims_global maxmergedim no_of_merges
              Hlen Hdims' Hnom active_nodes Hhead Hnd Hall) as (st & Hst & Hok).
  assert (Forall (λ k, (k < no_procs)%nat) (future_nodes st)) as Hfut.
  { apply Forall_forall. intros f Hf. by apply (ok_future _ _ _ _ _ _ Hok). }
  destruct (build_recv_from_spec no_procs (future_nodes st) (send_to st) Hfut)
    as (rf & Hrf & Hlook).
  unfold schedule. rewrite Hst. simpl. rewrite Hrf. simpl.
  eexists. split; [reflexivity|]. simpl. split; [|split; [|split]].
  - intros f Hf. exists (senders_to no_procs (send_to st) f).
    split; [by apply Hlook|]. split.
    + rewrite width_sum_sum_over. by apply (ok_width _ _ _ _ _ _ Hok).
    + intros n Hn. rewrite length_sum_over.
      by apply (ok_count _ _ _ _ _ _ Hok).
  - apply (ok_head _ _ _ _ _ _ Hok).
  - apply (ok_nodup _ _ _ _ _ _ Hok).
  - exact Hfut.
Qed.

Lemma schedule_respects_caps_witness :
  length [2; 2; 2; 2] = 4%nat ∧
  Forall (λ d, 0 ≤ d ≤ 4) [2; 2; 2; 2] ∧
  (∀ n, Some 2 = Some n → 2 ≤ n) ∧
  head [0; 1; 2; 3]%nat = Some 0%nat ∧
  NoDup [0; 1; 2; 3]%nat ∧
  Forall (λ k, (k < 4)%nat) [0; 1; 2; 3]%nat ∧
  ∃ pl,
    schedule 4 [2; 2; 2; 2] 4 (Some 2) [0; 1; 2; 3]%nat = Ok pl ∧
    (∀ f, f ∈ plan_future pl →
       ∃ children,
         plan_recv_from pl !! f = Some children ∧
         default 0 ([2; 2; 2; 2] !! f) + width_sum [2; 2; 2; 2] children ≤ 4 ∧
         ∀ n, Some 2 = Some n → 1 + Z.of_nat (length children) ≤ n) ∧
    head (plan_future pl) = Some 0%nat ∧
    NoDup (plan_future pl) ∧
    Forall (λ k, (k < 4)%nat) (plan_future pl).
Proof.
  assert (Forall (λ d, 0 ≤ d ≤ 4) [2; 2; 2; 2]) as H1
    by (repeat constructor; lia).
  assert (∀ n, Some 2 = Some n → 2 ≤ n) as H2 by (intros n [= <-]; lia).
  assert (NoDup [0; 1; 2; 3]%nat) as H3 by (apply (NoDup_seq 0 4)).
  assert (Forall (λ k, (k < 4)%nat) [0; 1; 2; 3]%nat) as H4
    by (repeat constructor; lia).
  repeat (split; [done|]).
  apply (schedule_respects_caps 4 [2; 2; 2; 2] 4 (Some 2) [0; 1; 2; 3]%nat
           eq_refl H1 H2 eq_refl H3 H4).
Defined.

Section Levels.

Variable svd : Tensor → Tensor * list Q.
Variables maxrank maxmergedim : Z.
Variable loctol : option Q.
Variable safetyshift : Z.
Variable no_of_merges : option Z.

Lemma loop_pass_plan (level : nat) (active_nodes : list nat)
    (procs procs' : list proc_state) (pl : plan) :
  loop_pass svd level maxrank maxmergedim loctol safetyshift no_of_merges
    active_nodes procs = Ok (pl, procs') →
  ∃ st, sweep (length procs) ((λ p, Z.of_nat (shape1 (U_loc p))) <$> procs)
          maxmergedim no_of_merges active_nodes = Ok st
        ∧ plan_future pl = future_nodes st.
Proof.
  unfold loop_pass, schedule. intros H.
  destruct (sweep _ _ _ _ _) as [st|]; simpl in H; [|discriminate].
  destruct (build_recv_from _ _ _); simpl in H; [|discriminate].
  destruct (traverse_from _ _ _); simpl in H; [|discriminate].
  injection H as <- _. eauto.
Qed.

Lemma length_traverse_from {A B : Type} (f : nat → A → result B) (i : nat)
    (l : list A) (l' : list B) :
  traverse_from f i l = Ok l' → length l' = length l.
Proof.
  revert i l'. induction l as [|x l IH]; intros i l'; simpl.
  - by intros [= <-].
  - destruct (f i x); simpl; [|discriminate].
    destruct (traverse_from f (S i) l) as [ys|] eqn:E; simpl; [|discriminate].
    intros [= <-]. simpl. f_equal. eapply IH, E.
Qed.

(** A pass whose widths are at most [maxmergedim], with [no_of_merges] unset
    or at least 2, hands an active set to the next pass that again starts
    with rank 0 and names each rank once; with [initial_active_set] this
    holds at every level reached through such passes. *)
Lemma loop_pass_keeps_active_set (level : nat) (active_nodes : list nat)
    (procs procs' : list proc_state) (pl : plan) :
  Forall (λ p, (Z.of_nat (shape1 (U_loc p)) ≤ maxmergedim)%Z) procs →
  (∀ n, no_of_merges = Some n → (2 ≤ n)%Z) →
  head active_nodes = Some 0%nat →
  NoDup active_nodes →
  Forall (λ k, (k < length procs)%nat) active_nodes →
  loop_pass svd level maxrank maxmergedim loctol safetyshift no_of_merges
    active_nodes procs = Ok (pl, procs') →
  head (plan_future pl) = Some 0%nat ∧
  NoDup (plan_future pl) ∧
  Forall (λ k, (k < length procs')%nat) (plan_future pl).
Proof.
  intros Hw Hnom Hhead Hnd Hall Hpass. unfold loop_pass in Hpass.
  destruct (schedule _ _ _ _ _) as [pl0|] eqn:Hpl; simpl in Hpass; [|discriminate].
  destruct (traverse_from _ _ _) as [ps|] eqn:Hps; simpl in Hpass; [|discriminate].
  injection Hpass as <- <-. apply length_traverse_from in Hps. rewrite Hps.
  eapply schedule_keeps_active_set; [| | | | | |exact Hpl]; try done.
  - by rewrite length_fmap.
  - apply Forall_fmap. eapply Forall_impl; [exact Hw|]. simpl. lia.
Qed.

(** C8: every pass of the loop starts from an active set whose first rank
    is 0, the root of the final broadcasts; the future nodes of the pass
    start with the same rank, and when a single future node is left, which
    ends the loop, it is rank 0. *)
Theorem rank_zero_leads_every_level (level : nat) (active_nodes : list nat)
    (procs : list proc_state) :
  procs ≠ [] →
  reduction_level svd maxrank maxmergedim loctol safetyshift no_of_merges
    level active_nodes procs →
  head active_nodes = Some bcast_root ∧
  ∀ pl procs',
    loop_pass svd level maxrank maxmergedim loctol safetyshift no_of_merges
      active_nodes procs = Ok (pl, procs') →
    head (plan_future pl) = head active_nodes ∧
    bcast_root ∈ plan_future pl ∧
    (length (plan_future pl) = 1%nat → plan_future pl = [bcast_root]).
Proof.
  intros Hne Hlevel.
  assert (head active_nodes = Some bcast_root) as Hact.
  { destruct Hlevel as [procs|level active procs pl procs' _ Hpass _].
    - destruct procs; [done | reflexivity].
    - apply loop_pass_plan in Hpass as (st & Hst & ->).
      eapply sweep_head, Hst. }
  split; [exact Hact|]. intros pl procs' Hpass.
  apply loop_pass_plan in Hpass as (st & Hst & ->).
  apply sweep_head in Hst. rewrite Hact.
  destruct (future_nodes st) as [|f fs]; [done|]. injection Hst as ->.
  split; [done|]. split; [left|].
  intros Hone. destruct fs; [done | discriminate].
Qed.

End Levels.

Lemma rank_zero_leads_every_level_witness :
  let procs := [mkProc (mkTensor float64 2 [[2; 0]; [0; 1]]%Q) 0%Q] in
  procs ≠ [] ∧
  reduction_level diag_svd 1 3 None 0 None 0 (seq 0 (length procs)) procs ∧
  head (seq 0 (length procs)) = Some bcast_root ∧
  ∀ pl procs',
    loop_pass diag_svd 0 1 3 None 0 None (seq 0 (length procs)) procs
    = Ok (pl, procs') →
    head (plan_future pl) = head (seq 0 (length procs)) ∧
    bcast_root ∈ plan_future pl ∧
    (length (plan_future pl) = 1%nat → plan_future pl = [bcast_root]).
Proof.
  intros procs.
  assert (procs ≠ []) as H1 by discriminate.
  assert (reduction_level diag_svd 1 3 None 0 None 0 (seq 0 (length procs)) procs)
    as H2 by constructor.
  split; [exact H1|]. split; [exact H2|].
  apply (rank_zero_leads_every_level diag_svd 1 3 None 0 None 0
           (seq 0 (length procs)) procs H1 H2).
Defined.

Open Scope Q_scope.

(** ** The gate [hsvd_rank] *)

Lemma tensor_ge_fits (t x : Z) :
  (int64_min ≤ x ≤ int64_max)%Z → tensor_ge t x = Ok (t >=? x)%Z.
Proof.
  intros [H1 H2]. unfold tensor_ge.
  apply Z.leb_le in H1, H2. by rewrite H1, H2.
Qed.

Lemma tensor_ge_inv (t x : Z) (b : bool) :
  tensor_ge t x = Ok b → (int64_min ≤ x ≤ int64_max)%Z ∧ b = (t >=? x)%Z.
Proof.
  unfold tensor_ge.
  destruct (Z.leb_spec int64_min x), (Z.leb_spec x int64_max); simpl;
    try discriminate.
  intros [= <-]. done.
Qed.

(** The comparison of the default branch leaves int64: with maxrank = 2^62
    and safetyshift = 0 the right side is 2^63, and both gates raise
    RuntimeError. *)
Example gate_default_overflow :
  let A := mkDND 2 float64 (Some 1%nat) [mkTensor float64 2 [[2; 0]; [0; 1]]%Q] in
  tensor_ge 2 (2 * (2 ^ 62 + 0)) = Raise RuntimeError ∧
  hsvd_rank_gate (Dnd A) (2 ^ 62) false None 0 = Raise RuntimeError ∧
  hsvd_rtol_gate (Dnd A) (1 # 10) false (Some (2 ^ 62)%Z) None 0 None
  = Raise RuntimeError.
Proof. repeat split. Qed.

(** The default of [maxmergedim]. *)
Lemma hsvd_rank_gate_default (A : DNDarray) (maxrank : Z) (full : bool)
    (safetyshift L : Z) :
  ndim A = 2%nat →
  dnd_dtype A = float32 ∨ dnd_dtype A = float64 →
  A_local_size A = Ok L →
  (int64_min ≤ 2 * (maxrank + safetyshift) ≤ int64_max)%Z →
  hsvd_rank_gate (Dnd A) maxrank full None safetyshift
  = Ok (mkCall A maxrank
          (if (L >=? 2 * (maxrank + safetyshift))%Z then L
           else 2 * (maxrank + safetyshift) + 1)%Z
          None safetyshift None full).
Proof.
  intros Hn Hd HL Hfit. unfold hsvd_rank_gate. rewrite Hn, HL. simpl.
  rewrite (tensor_ge_fits _ _ Hfit).
  destruct Hd as [-> | ->]; simpl; by destruct (_ >=? _)%Z.
Qed.

(** C3: with one process that holds 2 columns, rank 1 and safety shift 0 the
    largest local width equals 2 * (maxrank + safetyshift) = 2; the gate
    hands maxmergedim = 2 to [hsvd], not max(2, 3) = 3, and it rejects the
    same value 2 when the caller gives it. *)
Theorem hsvd_rank_default_maxmergedim_boundary :
  let A := mkDND 2 float64 (Some 1%nat) [mkTensor float64 2 [[2; 0]; [0; 1]]] in
  A_local_size A = Ok 2%Z ∧
  hsvd_rank_gate (Dnd A) 1 false None 0 = Ok (mkCall A 1 2 None 0 None false) ∧
  Z.max 2 (2 * (1 + 0) + 1) = 3%Z ∧
  hsvd_rank_gate (Dnd A) 1 false (Some 2%Z) 0 = Raise RuntimeError.
Proof. repeat split. Qed.

(** C4 fails: a rank of 0 passes the gate and is handed to [hsvd]. *)
Lemma hsvd_rank_gate_accepts_rank_zero :
  let A := mkDND 2 float64 (Some 1%nat) [mkTensor float64 2 [[2; 0]; [0; 1]]] in
  hsvd_rank_gate (Dnd A) 0 false None 5 = Ok (mkCall A 0 11 None 5 None false) ∧
  hsvd_rank_gate (Dnd A) (-3) false None 5 = Ok (mkCall A (-3) 5 None 5 None false).
Proof. split; reflexivity. Qed.

(** C4, as the code has it: a rank that is not positive is not refused. For
    every maxrank <= 0, a 2-D array of float32 or float64 with at least one
    local block, and [maxmergedim] either at least
    2 * (maxrank + safetyshift) + 1 or absent with 2 * (maxrank + safetyshift)
    in the range of int64, the gate raises nothing and hands [maxrank]
    unchanged to [hsvd]. *)
Theorem hsvd_rank_gate_passes_nonpositive_rank (A : DNDarray) (maxrank : Z)
    (full : bool) (maxmergedim : option Z) (safetyshift : Z) :
  (maxrank ≤ 0)%Z →
  ndim A = 2%nat →
  dnd_dtype A = float32 ∨ dnd_dtype A = float64 →
  larrays A ≠ [] →
  (maxmergedim = None →
   (int64_min ≤ 2 * (maxrank + safetyshift) ≤ int64_max)%Z) →
  (∀ d, maxmergedim = Some d → (2 * (maxrank + safetyshift) + 1 ≤ d)%Z) →
  ∃ d, hsvd_rank_gate (Dnd A) maxrank full maxmergedim safetyshift
       = Ok (mkCall A maxrank d None safetyshift None full).
Proof.
  intros _ Hn Hd Hl Hfit Hm.
  destruct (py_max_nonempty ((λ M, Z.of_nat (shape1 M)) <$> larrays A)) as [L HL].
  { destruct (larrays A); [done | discriminate]. }
  destruct maxmergedim as [d|].
  - exists d. unfold hsvd_rank_gate, A_local_size. rewrite Hn, HL. simpl.
    assert ((d <? 2 * (maxrank + safetyshift) + 1)%Z = false) as Hd'
      by (apply Z.ltb_ge, Hm; done).
    destruct Hd as [-> | ->]; simpl; by rewrite Hd'.
  - eexists. apply (hsvd_rank_gate_default A maxrank full safetyshift L); auto.
Qed.

Lemma hsvd_rank_gate_passes_nonpositive_rank_witness :
  let A := mkDND 2 float32 (Some 1%nat) [mkTensor float32 2 [[2; 0]; [0; 1]]] in
  (-1 ≤ 0)%Z ∧
  ndim A = 2%nat ∧
  (dnd_dtype A = float32 ∨ dnd_dtype A = float64) ∧
  larrays A ≠ [] ∧
  (int64_min ≤ 2 * (-1 + 5) ≤ int64_max)%Z ∧
  ∃ d, hsvd_rank_gate (Dnd A) (-1) true None 5
       = Ok (mkCall A (-1) d None 5 None true).
Proof.
  intros A.
  assert (-1 ≤ 0)%Z as H0 by lia.
  assert (dnd_dtype A = float32 ∨ dnd_dtype A = float64) as H1 by (left; reflexivity).
  assert (larrays A ≠ []) as H2 by discriminate.
  assert (int64_min ≤ 2 * (-1 + 5) ≤ int64_max)%Z as H3
    by (unfold int64_min, int64_max; lia).
  assert (∀ d, @None Z = Some d → (2 * (-1 + 5) + 1 ≤ d)%Z) as H4 by discriminate.
  split; [exact H0|]. split; [reflexivity|]. split; [exact H1|].
  split; [exact H2|]. split; [exact H3|].
  apply (hsvd_rank_gate_passes_nonpositive_rank A (-1) true None 5
           H0 eq_refl H1 H2 (λ _, H3) H4).
Defined.

(** ** The post-processing *)

(** C2: the guard of the division is on the norm of the whole of sigma,
    not on each sigma_i. [hsvd_rank] called with maxrank = -1 and full = True
    (maxmergedim and safetyshift at their defaults) on the 3 x 3 array
    diag(1, 0, 0) held by one process passes the gate with maxmergedim 9.
    Level 0 keeps min(3, -1 + 5) = 3 columns; the final level, with
    safety shift 0, cuts at -1 and returns the first two columns of the
    identity. V = A^T U has the columns (1, 0, 0) and (0, 0, 0), sigma is
    [1; 0], its norm 1 is positive, and V is multiplied by diag(1 / sigma):
    the second column, whose sigma_i is 0, is divided by zero and comes back
    non-finite instead of being left as it is. *)
Theorem hsvd_rank_divides_zero_column :
  let A := mkDND 2 float64 (Some 1%nat)
             [mkTensor float64 3 [[1; 0; 0]; [0; 0; 0]; [0; 0; 0]]] in
  let U := mkTensor float64 3 [[1; 0; 0]; [0; 1; 0]] in
  hsvd_rank_gate (Dnd A) (-1) true None 5
  = Ok (mkCall A (-1) 9 None 5 None true) ∧
  compute_local_truncated_svd diag_svd 0 0
    (mkTensor float64 3 [[1; 0; 0]; [0; 0; 0]; [0; 0; 0]]) (-1) None 5
  = Ok (mkTensor float64 3 [[1; 0; 0]; [0; 1; 0]; [0; 0; 1]], [1; 0; 0], 0) ∧
  compute_local_truncated_svd diag_svd 1 0
    (mkTensor float64 3 [[1; 0; 0]; [0; 0; 0]; [0; 0; 0]]) (-1) None 0
  = Ok (U, [1; 0], 0) ∧
  matmul_T (global_columns A) U = [[1; 0; 0]; [0; 0; 0]] ∧
  vector_norm exact_sqrt <$> matmul_T (global_columns A) U = [1; 0] ∧
  Qlt_bool 0 (vector_norm exact_sqrt [1; 0]) = true ∧
  hsvd_rank diag_svd exact_sqrt 1 (Dnd A) (-1) true None 5
  = Some (Ok (Ret_U_sigma_V U [1; 0]
                [[Some 1; Some 0; Some 0]; [None; None; None]] (Some 0))) ∧
  [@None Q; None; None] ≠ [Some 0; Some 0; Some 0].
Proof. repeat split. discriminate. Qed.

(** ** The reported error of [hsvd] *)

Section LocalTolerance.

Variable svd : Tensor → Tensor * list Q.
Variables level proc_id : nat.

(** A truncation that finds a singular value above the noise level, whose
    tolerance rank is capped neither by [maxrank] nor by the noise rank, and
    whose shifted rank stays within the number of singular values, reports
    an error below the squared tolerance. *)
Lemma local_error_below_loctol (M U_f : Tensor) (sigma_f : list Q)
    (maxrank safetyshift : Z) (tol : Q) (eps : Q) (mx k : Z) :
  svd M = (U_f, sigma_f) →
  noiselevel_of (dtype_of U_f) = Ok eps →
  py_max (no_noise_idx eps sigma_f) = Ok mx →
  ideal_trunc_rank sigma_f tol = Ok k →
  (k ≤ maxrank)%Z → (k ≤ mx + 1)%Z →
  (k + safetyshift ≤ Z.of_nat (length sigma_f))%Z →
  ∃ U sigma e,
    compute_local_truncated_svd svd level proc_id M maxrank (Some tol) safetyshift
    = Ok (U, sigma, e) ∧
    e < tol * tol.
Proof.
  intros Hsvd Heps Hmx Hk Hcap Hnoise Hshift.
  assert (base_rank sigma_f maxrank (Some tol) (mx + 1) = Ok k) as Hb.
  { unfold base_rank. rewrite Hk. simpl. f_equal. lia. }
  destruct (compute_local_truncated_svd_error_tail svd level proc_id
              M U_f sigma_f maxrank (Some tol) safetyshift eps mx k
              Hsvd Heps Hmx Hb Hshift) as (U & sigma & Hrun).
  exists U, sigma, (norm_sq (slice_from k sigma_f)).
  split; [exact Hrun|].
  by apply ideal_trunc_rank_spec in Hk as (_ & Hlt & _).
Qed.

End LocalTolerance.

(** C9: the reported estimate exceeds rtol. [hsvd_rtol] is called with
    rtol = 3/8 and safetyshift = 0 (maxrank, maxmergedim and no_of_merges
    unset) on the 3 x 3 array diag(12, 4, 3) held by one process. The gate
    sets maxrank 3, maxmergedim 7 and no_of_merges 2; the norm is 13 and
    loctol = 13 * (3/8) / sqrt(1) = 39/8. The rank cap 3 binds nowhere:
    level 0 has the tolerance rank 2 and drops the singular value 3
    (9 < 1521/64 <= 25), the final level has the tolerance rank 1 and drops
    the singular value 4 (16 < 1521/64 <= 160). The two errors add up to 25
    and the reported estimate is sqrt(25) / 13 = 5/13, above 3/8. Every
    square root of the run (of 1, 169 and 25) is exact. *)
Theorem hsvd_rtol_estimate_exceeds_rtol :
  let A := mkDND 2 float64 (Some 1%nat)
             [mkTensor float64 3 [[12; 0; 0]; [0; 4; 0]; [0; 0; 3]]] in
  hsvd_rtol_gate (Dnd A) (3 # 8) false None None 0 None
  = Ok (mkCall A 3 7 (Some (3 # 8)) 0 (Some 2%Z) false) ∧
  vector_norm exact_sqrt (concat (global_columns A)) = 13 ∧
  loctol_of exact_sqrt 13 (Some (3 # 8)) 1 = Some (39 # 8) ∧
  ideal_trunc_rank [12; 4; 3] (39 # 8) = Ok 2%Z ∧
  compute_local_truncated_svd diag_svd 0 0
    (mkTensor float64 3 [[12; 0; 0]; [0; 4; 0]; [0; 0; 3]]) 3 (Some (39 # 8)) 0
  = Ok (mkTensor float64 3 [[1; 0; 0]; [0; 1; 0]], [12; 4], 9) ∧
  ideal_trunc_rank [12; 4] (39 # 8) = Ok 1%Z ∧
  compute_local_truncated_svd diag_svd 1 0
    (mkTensor float64 3 [[12; 0; 0]; [0; 4; 0]]) 3 (Some (39 # 8)) 0
  = Ok (mkTensor float64 3 [[1; 0; 0]], [12], 16) ∧
  exact_sqrt (9 + 16) = 5 ∧
  hsvd_rtol diag_svd exact_sqrt 1 (Dnd A) (3 # 8) false None None 0 None
  = Some (Ok (Ret_U (mkTensor float64 3 [[1; 0; 0]]) (Some (5 # 13)))) ∧
  ¬ (5 # 13) <= (3 # 8).
Proof. repeat split. intros H. apply H. reflexivity. Qed.

(** * Further properties *)

(** ** The local truncation: what is kept and what is reported *)

Lemma norm_sq_app (l1 l2 : list Q) :
  norm_sq (l1 ++ l2) == norm_sq l1 + norm_sq l2.
Proof.
  induction l1 as [|x l1 IH]; simpl; [lra|]. rewrite IH. lra.
Qed.

Lemma norm_sq_take_drop (n : nat) (l : list Q) :
  norm_sq (take n l) + norm_sq (drop n l) == norm_sq l.
Proof. rewrite <- norm_sq_app, take_drop. reflexivity. Qed.

Lemma norm_sq_drop_le (n n' : nat) (l : list Q) :
  (n ≤ n')%nat → norm_sq (drop n' l) <= norm_sq (drop n l).
Proof.
  intros H. replace n' with (n + (n' - n))%nat by lia.
  rewrite <- drop_drop.
  rewrite <- (norm_sq_take_drop (n' - n) (drop n l)).
  pose proof (norm_sq_nonneg (take (n' - n) (drop n l))). lra.
Qed.

Lemma base_rank_le_cut (sigma : list Q) (maxrank : Z) (loctol : option Q)
    (cut b : Z) :
  base_rank sigma maxrank loctol cut = Ok b → (b ≤ cut)%Z.
Proof.
  unfold base_rank. destruct loctol as [tol|].
  - destruct (ideal_trunc_rank sigma tol); simpl; [|discriminate].
    intros [= <-]. lia.
  - intros [= <-]. lia.
Qed.

Section LocalTruncationMore.

Variable svd : Tensor → Tensor * list Q.
Variables level proc_id : nat.

(** The two ways in which the routine returns. *)
Lemma compute_local_truncated_svd_inv (M U_f U : Tensor) (sigma_f sigma : list Q)
    (maxrank : Z) (loctol : option Q) (safetyshift : Z) (e : Q) :
  svd M = (U_f, sigma_f) →
  compute_local_truncated_svd svd level proc_id M maxrank loctol safetyshift
  = Ok (U, sigma, e) →
  ∃ eps, noiselevel_of (dtype_of U_f) = Ok eps ∧
    ((no_noise_idx eps sigma_f = [] ∧
      U = zeros (dtype_of U_f) (shape0 U_f) 1 ∧ sigma = [0] ∧ e = norm_sq sigma_f)
     ∨
     (∃ mx b, py_max (no_noise_idx eps sigma_f) = Ok mx ∧
        base_rank sigma_f maxrank loctol (mx + 1) = Ok b ∧
        let r := Z.min (Z.of_nat (length sigma_f)) (b + safetyshift) in
        U = cols_to r U_f ∧ sigma = slice_to r sigma_f ∧
        e = norm_sq (slice_from (r - safetyshift) sigma_f))).
Proof.
  intros Hsvd. unfold compute_local_truncated_svd. rewrite Hsvd.
  destruct (noiselevel_of (dtype_of U_f)) as [eps|] eqn:Heps; simpl; [|discriminate].
  intros H. exists eps. split; [done|].
  destruct (decide (length (no_noise_idx eps sigma_f) ≠ 0%nat)) as [Hne|He].
  - right. destruct (py_max (no_noise_idx eps sigma_f)) as [mx|] eqn:Hmx;
      simpl in H; [|discriminate].
    destruct (base_rank sigma_f maxrank loctol (mx + 1)) as [b|] eqn:Hb;
      simpl in H; [|discriminate].
    injection H as <- <- <-. exists mx, b. done.
  - left. injection H as <- <- <-.
    destruct (no_noise_idx eps sigma_f); [done|]. exfalso. apply He. discriminate.
Qed.

(** X1: with a rank cap and a safety shift that are not negative, the
    squared norm of the returned singular values plus the reported error is
    at least the squared norm of all singular values: the report never
    understates what was cut. *)
Theorem reported_error_covers_discarded (M U_f U : Tensor)
    (sigma_f sigma : list Q) (maxrank : Z) (loctol : option Q)
    (safetyshift : Z) (e : Q) :
  svd M = (U_f, sigma_f) →
  (0 ≤ maxrank)%Z → (0 ≤ safetyshift)%Z →
  compute_local_truncated_svd svd level proc_id M maxrank loctol safetyshift
  = Ok (U, sigma, e) →
  norm_sq sigma_f <= norm_sq sigma + e.
Proof.
  intros Hsvd Hr Hs Hrun.
  destruct (compute_local_truncated_svd_inv _ _ _ _ _ _ _ _ _ Hsvd Hrun)
    as (eps & Heps & [(_ & _ & -> & ->) | (mx & b & Hmx & Hb & _ & -> & ->)]).
  - simpl. lra.
  - assert (0 ≤ mx)%Z as Hmx0.
    { apply py_max_spec in Hmx as [Hin _].
      apply no_noise_idx_range in Hin. lia. }
    assert (0 ≤ b ≤ maxrank)%Z as Hbb
      by (apply (base_rank_bounds _ _ _ _ _ Hb); lia).
    set (c := length sigma_f).
    set (r := Z.min (Z.of_nat c) (b + safetyshift)).
    unfold slice_to, slice_from. fold c.
    rewrite (slice_bound_inside c r) by lia.
    rewrite <- (norm_sq_take_drop (Z.to_nat r) sigma_f) at 1.
    assert (slice_bound c (r - safetyshift) ≤ Z.to_nat r)%nat as Hle.
    { unfold slice_bound. destruct (Z.ltb_spec (r - safetyshift) 0); lia. }
    pose proof (norm_sq_drop_le _ _ sigma_f Hle). lra.
Qed.

(** X2: without a safety shift, as at the final level, nothing is counted
    twice: the squared norm of the returned singular values plus the reported
    error equals the squared norm of all singular values. *)
Theorem reported_error_exact_without_shift (M U_f U : Tensor)
    (sigma_f sigma : list Q) (maxrank : Z) (loctol : option Q) (e : Q) :
  svd M = (U_f, sigma_f) →
  (0 ≤ maxrank)%Z →
  compute_local_truncated_svd svd level proc_id M maxrank loctol 0
  = Ok (U, sigma, e) →
  norm_sq sigma + e == norm_sq sigma_f.
Proof.
  intros Hsvd Hr Hrun.
  destruct (compute_local_truncated_svd_inv _ _ _ _ _ _ _ _ _ Hsvd Hrun)
    as (eps & Heps & [(_ & _ & -> & ->) | (mx & b & Hmx & Hb & _ & -> & ->)]).
  - simpl. lra.
  - assert (0 ≤ mx)%Z as Hmx0.
    { apply py_max_spec in Hmx as [Hin _].
      apply no_noise_idx_range in Hin. lia. }
    assert (0 ≤ b ≤ maxrank)%Z as Hbb
      by (apply (base_rank_bounds _ _ _ _ _ Hb); lia).
    set (c := length sigma_f).
    set (r := Z.min (Z.of_nat c) (b + 0)).
    replace (r - 0)%Z with r by lia.
    unfold slice_to, slice_from. fold c.
    rewrite (slice_bound_inside c r) by lia.
    apply norm_sq_take_drop.
Qed.

(** X3: when the backend returns the singular values in non-increasing
    order, a truncation without safety shift keeps no singular value below
    the noise level: the result is either the zero factor of the all-noise
    case or every returned singular value is at least the noise level. *)
Theorem no_noise_kept_without_shift (M U_f U : Tensor)
    (sigma_f sigma : list Q) (maxrank : Z) (loctol : option Q) (e eps : Q) :
  svd M = (U_f, sigma_f) →
  noiselevel_of (dtype_of U_f) = Ok eps →
  (∀ (i j : nat) (x y : Q),
     (i ≤ j)%nat → sigma_f !! i = Some x → sigma_f !! j = Some y → y <= x) →
  (0 ≤ maxrank)%Z →
  compute_local_truncated_svd svd level proc_id M maxrank loctol 0
  = Ok (U, sigma, e) →
  (sigma = [0] ∧ ∀ s, s ∈ sigma_f → s < eps) ∨ (∀ s, s ∈ sigma → eps <= s).
Proof.
  intros Hsvd Heps Hsorted Hr Hrun.
  destruct (compute_local_truncated_svd_inv _ _ _ _ _ _ _ _ _ Hsvd Hrun)
    as (eps' & Heps' & [(Hnil & _ & -> & _) | (mx & b & Hmx & Hb & _ & -> & _)]);
    assert (eps' = eps) as -> by congruence.
  - left. split; [done|]. intros s Hs.
    apply list_elem_of_lookup in Hs as [n Hn].
    apply Qnot_le_lt. intros Hle.
    assert (Z.of_nat n ∈ no_noise_idx eps sigma_f) as Hin.
    { apply elem_of_argwhere. exists n, s. split; [done|]. split; [done|].
      by apply Qle_bool_iff. }
    rewrite Hnil in Hin. inversion Hin.
  - right. intros s Hs.
    apply py_max_spec in Hmx as [Hin _].
    apply elem_of_argwhere in Hin as (n & x & -> & Hn & Hx).
    apply Qle_bool_iff in Hx.
    assert (0 ≤ b ≤ maxrank)%Z as Hbb
      by (apply (base_rank_bounds _ _ _ _ _ Hb); lia).
    apply base_rank_le_cut in Hb.
    unfold slice_to in Hs.
    apply list_elem_of_lookup in Hs as [i Hi].
    apply lookup_take_Some in Hi as [Hi Hlt].
    rewrite slice_bound_inside in Hlt by lia.
    assert (i ≤ n)%nat as Hin by lia.
    pose proof (Hsorted i n s x Hin Hi Hn). lra.
Qed.


(** With a rank cap of at least 1 and no tolerance the routine returns, and
    the factor has between 1 and maxrank + safetyshift columns. *)
Lemma rank_mode_truncation (M U_f : Tensor) (sigma_f : list Q)
    (maxrank safetyshift : Z) :
  svd M = (U_f, sigma_f) →
  dtype_of U_f ≠ other_dtype →
  shape1 U_f = length sigma_f →
  (1 ≤ maxrank)%Z → (0 ≤ safetyshift)%Z →
  ∃ U sigma e,
    compute_local_truncated_svd svd level proc_id M maxrank None safetyshift
    = Ok (U, sigma, e) ∧
    length sigma = shape1 U ∧
    (1 ≤ Z.of_nat (shape1 U) ≤ maxrank + safetyshift)%Z ∧
    dtype_of U = dtype_of U_f ∧ 0 <= e.
Proof.
  intros Hsvd Hd HU Hr Hs.
  assert (∃ eps, noiselevel_of (dtype_of U_f) = Ok eps) as [eps Heps]
    by (destruct (dtype_of U_f); [eauto..|done]).
  destruct (no_noise_idx eps sigma_f) as [|i0 idx] eqn:Hidx.
  - unfold compute_local_truncated_svd. rewrite Hsvd, Heps. simpl.
    rewrite Hidx. simpl. eexists _, _, _. split; [reflexivity|].
    unfold shape1, zeros. cbn [columns replicate length dtype_of].
    split; [done|]. split; [lia|]. split; [done|]. apply norm_sq_nonneg.
  - destruct (py_max_nonempty (no_noise_idx eps sigma_f)) as [mx Hmx];
      [by rewrite Hidx|].
    assert (0 ≤ mx < Z.of_nat (length sigma_f))%Z as Hmxr.
    { apply (no_noise_idx_range eps). by apply py_max_spec. }
    assert (base_rank sigma_f maxrank None (mx + 1)
            = Ok (Z.min maxrank (mx + 1))) as Hb by reflexivity.
    rewrite (compute_local_truncated_svd_truncates svd level proc_id _ _ _ _ _ _ _ _ _
               Hsvd Heps Hmx Hb).
    eexists _, _, _. split; [reflexivity|].
    unfold shape1 in *. unfold cols_to. cbn [columns dtype_of].
    rewrite (length_slice_to _ sigma_f) by lia.
    rewrite (length_slice_to _ (columns U_f)) by lia.
    split; [done|]. split; [lia|]. split; [done|]. apply norm_sq_nonneg.
Qed.


End LocalTruncationMore.

(** X6: the tolerance rank does not grow with the tolerance: a tolerance
    whose square is larger gives a rank that is smaller or equal. *)
Theorem ideal_trunc_rank_antitone (sigma : list Q) (tol tol' : Q) (k k' : Z) :
  ideal_trunc_rank sigma tol = Ok k →
  ideal_trunc_rank sigma tol' = Ok k' →
  tol * tol <= tol' * tol' →
  (k' ≤ k)%Z.
Proof.
  intros Hk Hk' Hle.
  apply ideal_trunc_rank_spec in Hk as (Hk0 & Hlt & _).
  apply ideal_trunc_rank_spec in Hk' as (Hk0' & _ & Hleast).
  destruct (Z.le_gt_cases k' k) as [|Hgt]; [done|]. exfalso.
  apply (Hleast k); [lia|]. lra.
Qed.

Open Scope Z_scope.

(** ** The scheduling sweep: who keeps, who sends, who is left out *)

(** What one iteration of the sweep does to its variables. *)
Lemma sweep_body_cases (dims_global : list Z) (maxmergedim : Z)
    (no_of_merges : option Z) (st st' : sweep_state) (c : nat) :
  sweep_body dims_global maxmergedim no_of_merges st c = Ok st' →
  ∃ d, dims_global !! c = Some d ∧
    (((used_budget st + d >? maxmergedim) || counter_hit (counter st) no_of_merges
      = true ∧
      st' = mkSweep (future_nodes st ++ [c]) (send_to st) c d 1)
     ∨
     ((used_budget st + d >? maxmergedim) || counter_hit (counter st) no_of_merges
      = false ∧
      ∃ s, st' = mkSweep (future_nodes st) s (current_future_node st)
                   (used_budget st + d) (counter st + 1) ∧
           ((used_budget st = 0 ∧ s = send_to st) ∨
            (used_budget st ≠ 0 ∧ (c < length (send_to st))%nat ∧
             s = <[c:=Some (current_future_node st)]> (send_to st))))).
Proof.
  unfold sweep_body, list_get, list_set. intros H.
  destruct (dims_global !! c) as [d|]; simpl in H; [|discriminate].
  exists d. split; [done|].
  destruct (_ || _).
  - left. split; [done|]. by injection H as <-.
  - right. split; [done|].
    destruct (Z.eqb_spec (used_budget st) 0) as [Hu|Hu]; simpl in H.
    + injection H as <-. eexists. split; [done|]. by left.
    + destruct (decide (c < length (send_to st))%nat); simpl in H; [|discriminate].
      injection H as <-. eexists. split; [done|]. right. done.
Qed.

(** A property of the loop variable that every iteration carries from the
    nodes visited so far to one more holds after the loop of all nodes. *)
Lemma for_each_prefix_invariant {S A : Type} (body : S → A → result S)
    (I : S → list A → Prop) (full : list A) :
  (∀ s x s' vis rest,
     full = vis ++ x :: rest → I s vis → body s x = Ok s' → I s' (vis ++ [x])) →
  ∀ l vis s s',
    full = vis ++ l → I s vis → for_each body l s = Ok s' → I s' full.
Proof.
  intros Hstep l. induction l as [|x l IH]; intros vis s s' Hfull HI; simpl.
  - intros [= <-]. rewrite app_nil_r in Hfull. by subst.
  - destruct (body s x) as [s1|] eqn:E; simpl; [|discriminate].
    intros Hrun. apply (IH (vis ++ [x]) s1); [|eauto|done].
    by rewrite <- app_assoc.
Qed.

Section SweepMore.

Variable no_procs : nat.
Variable dims_global : list Z.
Variable maxmergedim : Z.
Variable no_of_merges : option Z.
Variable active_nodes : list nat.

Hypothesis Hdims : Forall (λ d, 0 ≤ d ≤ maxmergedim) dims_global.
Hypothesis Hnom : ∀ n, no_of_merges = Some n → 2 ≤ n.
Hypothesis Hhead : head active_nodes = Some 0%nat.
Hypothesis Hnd : NoDup active_nodes.

Lemma sweep_relations (st : sweep_state) :
  sweep no_procs dims_global maxmergedim no_of_merges active_nodes = Ok st →
  current_future_node st ∈ future_nodes st ∧
  (future_nodes st `sublist_of` active_nodes) ∧
  length (send_to st) = no_procs ∧
  (∀ k f, send_to st !! k = Some (Some f) →
          k ∈ active_nodes ∧ (k ∉ future_nodes st) ∧ f ∈ future_nodes st) ∧
  (Forall (λ d, 1 ≤ d) dims_global →
   0 < used_budget st ∧
   ∀ k, k ∈ active_nodes →
        k ∈ future_nodes st ∨ ∃ f, send_to st !! k = Some (Some f)).
Proof.
  intros Hrun.
  set (I := λ (st : sweep_state) (vis : list nat),
    (vis = [] ∧ st = sweep_init no_procs) ∨
    (vis ≠ [] ∧
     current_future_node st ∈ future_nodes st ∧
     (future_nodes st `sublist_of` vis) ∧
     length (send_to st) = no_procs ∧
     (∀ k f, send_to st !! k = Some (Some f) →
             k ∈ vis ∧ (k ∉ future_nodes st) ∧ f ∈ future_nodes st) ∧
     (Forall (λ d, 1 ≤ d) dims_global →
      0 < used_budget st ∧
      ∀ k, k ∈ vis → k ∈ future_nodes st ∨ ∃ f, send_to st !! k = Some (Some f)))).
  assert (I st active_nodes) as [[Hnil _]|(_ & H)].
  { apply (for_each_prefix_invariant
             (sweep_body dims_global maxmergedim no_of_merges) I active_nodes)
      with (l := active_nodes) (vis := []) (s := sweep_init no_procs);
      [|done|by left|exact Hrun].
    clear st Hrun. intros st x st' vis rest Hfull HI Hbody.
    assert (x ∉ vis) as Hx.
    { rewrite Hfull in Hnd. apply NoDup_app in Hnd as (_ & Hdis & _).
      intros Hin. apply (Hdis x Hin). left. }
    apply sweep_body_cases in Hbody as (d & Hd & Hcase).
    assert (0 ≤ d ≤ maxmergedim) as Hdr.
    { eapply Forall_forall in Hdims; [exact Hdims|].
      eapply list_elem_of_lookup_2; eauto. }
    right. split; [by destruct vis|].
    destruct HI as [[-> ->]|(Hvis & Hcur & Hsub & Hlen & Hsend & Hpos)].
    - (* the first active node *)
      simpl in Hfull. rewrite Hfull in Hhead. injection Hhead as ->.
      assert ((0 + d >? maxmergedim) || counter_hit 0 no_of_merges = false) as Hc.
      { apply orb_false_iff. split.
        - rewrite Z.gtb_ltb. apply Z.ltb_ge. lia.
        - unfold counter_hit. destruct no_of_merges as [n|] eqn:E; [|done].
          specialize (Hnom n eq_refl). apply Z.eqb_neq. lia. }
      simpl in Hcase. rewrite Hc in Hcase.
      destruct Hcase as [[? _]|[_ (s & -> & [[_ ->]|[? _]])]]; try done.
      simpl. split; [left|]. split; [done|].
      split; [apply length_replicate|]. split.
      + intros k f Hk. apply lookup_replicate in Hk as [? _]. done.
      + intros Hone. split.
        * eapply Forall_forall in Hone; [|eapply list_elem_of_lookup_2; eauto]. lia.
        * intros k Hk. left. done.
    - destruct Hcase as [[_ ->]|[_ (s & -> & Hs)]]; simpl.
      + (* a new group *)
        split; [apply elem_of_app; right; left|].
        split; [by apply sublist_app|]. split; [done|]. split.
        * intros k f Hk. destruct (Hsend k f Hk) as (Hkv & Hkf & Hff).
          split; [apply elem_of_app; by left|].
          split; [|apply elem_of_app; by left].
          intros [?|Hkx%list_elem_of_singleton]%elem_of_app; [done|]. by subst.
        * intros Hone. destruct (Hpos Hone) as [_ Hall]. split.
          { eapply Forall_forall in Hone; [|eapply list_elem_of_lookup_2; eauto].
            lia. }
          intros k [Hk|Hk%list_elem_of_singleton]%elem_of_app.
          { destruct (Hall k Hk) as [?|?]; [left|by right].
            apply elem_of_app. by left. }
          subst. left. apply elem_of_app. right. left.
      + split; [done|]. split; [by apply sublist_inserts_r|].
        destruct Hs as [[Hu ->]|(Hu & Hxl & ->)].
        * (* joins, nothing counted yet *)
          split; [done|]. split.
          { intros k f Hk. destruct (Hsend k f Hk) as (? & ? & ?).
            split; [apply elem_of_app; by left|done]. }
          intros Hone. destruct (Hpos Hone) as [Hu' _]. lia.
        * (* joins and sends *)
          split; [by rewrite length_insert|]. split.
          { intros k f Hk. destruct (decide (k = x)) as [->|Hkx].
            - rewrite list_lookup_insert_eq in Hk by done. injection Hk as <-.
              split; [apply elem_of_app; right; left|]. split; [|done].
              intros Hin. apply Hx. by eapply elem_of_sublist.
            - rewrite list_lookup_insert_ne in Hk by done.
              destruct (Hsend k f Hk) as (? & ? & ?).
              split; [apply elem_of_app; by left|done]. }
          intros Hone. destruct (Hpos Hone) as [Hu' Hall]. split; [lia|].
          intros k [Hk|Hk%list_elem_of_singleton]%elem_of_app.
          { destruct (Hall k Hk) as [?|[f Hf]]; [by left|right].
            exists f. rewrite list_lookup_insert_ne; [done|]. intros ->. done. }
          subst. right. eexists. by apply list_lookup_insert_eq. }
  - rewrite Hnil in Hhead. done.
  - exact H.
Qed.

End SweepMore.

Lemma schedule_inv (no_procs : nat) (dims_global : list Z) (maxmergedim : Z)
    (no_of_merges : option Z) (active_nodes : list nat) (pl : plan) :
  schedule no_procs dims_global maxmergedim no_of_merges active_nodes = Ok pl →
  ∃ st,
    sweep no_procs dims_global maxmergedim no_of_merges active_nodes = Ok st ∧
    plan_future pl = future_nodes st ∧ plan_send_to pl = send_to st ∧
    build_recv_from no_procs (future_nodes st) (send_to st)
    = Ok (plan_recv_from pl).
Proof.
  unfold schedule. intros H.
  destruct (sweep _ _ _ _ _) as [st|]; simpl in H; [|discriminate].
  destruct (build_recv_from _ _ _) as [rf|] eqn:E; simpl in H; [|discriminate].
  injection H as <-. exists st. done.
Qed.

Lemma build_recv_from_lookup (no_procs : nat) (future : list nat)
    (send_to : list (option nat)) (rf : list (list nat)) (f : nat) :
  Forall (λ f, (f < no_procs)%nat) future →
  build_recv_from no_procs future send_to = Ok rf →
  rf !! f = if decide (f ∈ future) then Some (senders_to no_procs send_to f)
            else if decide (f < no_procs)%nat then Some [] else None.
Proof.
  intros Hall Hrf. unfold build_recv_from in Hrf.
  destruct (for_each_list_set (senders_to no_procs send_to) future
              (replicate no_procs [])) as (rf' & Hrf' & _ & Hlook).
  { by rewrite length_replicate. }
  rewrite Hrf in Hrf'. injection Hrf' as <-.
  rewrite Hlook, length_replicate.
  destruct (decide (f ∈ future)) as [Hf|Hf].
  - rewrite decide_True; [done|]. by eapply Forall_forall in Hall.
  - destruct (decide (f < no_procs)%nat).
    + by apply lookup_replicate_2.
    + apply lookup_ge_None. rewrite length_replicate. lia.
Qed.

Lemma for_each_future_length (dims_global : list Z) (maxmergedim : Z)
    (no_of_merges : option Z) (l : list nat) (st st' : sweep_state) :
  for_each (sweep_body dims_global maxmergedim no_of_merges) l st = Ok st' →
  (length (future_nodes st') ≤ length (future_nodes st) + length l)%nat.
Proof.
  revert st. induction l as [|x l IH]; intros st; simpl.
  - intros [= <-]. lia.
  - destruct (sweep_body _ _ _ st x) as [s1|] eqn:E; simpl; [|discriminate].
    intros H. apply IH in H.
    apply sweep_body_cases in E as (d & _ & [[_ ->]|[_ (s & -> & _)]]);
      simpl in H; rewrite ?length_app in H; simpl in H; lia.
Qed.

Lemma for_each_untouched (dims_global : list Z) (maxmergedim : Z)
    (no_of_merges : option Z) (l : list nat) (st st' : sweep_state) (c : nat) :
  for_each (sweep_body dims_global maxmergedim no_of_merges) l st = Ok st' →
  c ∉ l →
  send_to st' !! c = send_to st !! c ∧
  (c ∈ future_nodes st' → c ∈ future_nodes st).
Proof.
  revert st. induction l as [|x l IH]; intros st; simpl.
  - by intros [= <-].
  - destruct (sweep_body _ _ _ st x) as [s1|] eqn:E; simpl; [|discriminate].
    intros H Hc. apply not_elem_of_cons in Hc as [Hcx Hcl].
    destruct (IH s1 H Hcl) as [Hs Hf]. rewrite Hs.
    apply sweep_body_cases in E as (d & _ & [[_ ->]|[_ (s & -> & Hcase)]]);
      simpl in *.
    + split; [done|]. intros Hin. apply Hf in Hin.
      apply elem_of_app in Hin as [?|Hin%list_elem_of_singleton]; done.
    + split; [|done]. destruct Hcase as [[_ ->]|(_ & _ & ->)]; [done|].
      by apply list_lookup_insert_ne.
Qed.

(** The first two iterations of the sweep when the first two active nodes
    fit under [maxmergedim] together. *)
Lemma sweep_first_two (no_procs : nat) (dims_global : list Z)
    (maxmergedim : Z) (no_of_merges : option Z) (c : nat) (rest : list nat)
    (d0 d1 : Z) :
  (∀ n, no_of_merges = Some n → 2 ≤ n) →
  dims_global !! 0%nat = Some d0 → dims_global !! c = Some d1 →
  0 ≤ d0 → d0 + d1 ≤ maxmergedim → d0 ≤ maxmergedim →
  (c < no_procs)%nat →
  sweep no_procs dims_global maxmergedim no_of_merges (0%nat :: c :: rest)
  = for_each (sweep_body dims_global maxmergedim no_of_merges) rest
      (mkSweep [0%nat]
         (if decide (d0 = 0) then replicate no_procs None
          else <[c:=Some 0%nat]> (replicate no_procs None))
         0%nat (d0 + d1) 2).
Proof.
  intros Hnom H0 H1 Hd0 Hfit Hd0m Hc. unfold sweep.
  assert (∀ k, (k = 0 ∨ k = 1) → counter_hit k no_of_merges = false) as Hhit.
  { intros k Hk. unfold counter_hit. destruct no_of_merges as [n|] eqn:E; [|done].
    specialize (Hnom n eq_refl). apply Z.eqb_neq. lia. }
  assert (sweep_body dims_global maxmergedim no_of_merges (sweep_init no_procs) 0
          = Ok (mkSweep [0%nat] (replicate no_procs None) 0%nat d0 1)) as Hstep0.
  { unfold sweep_body, list_get. rewrite H0. simpl.
    assert ((0 + d0 >? maxmergedim) = false) as ->
      by (rewrite Z.gtb_ltb; apply Z.ltb_ge; lia).
    rewrite (Hhit 0) by lia. simpl. do 2 f_equal. }
  assert (sweep_body dims_global maxmergedim no_of_merges
            (mkSweep [0%nat] (replicate no_procs None) 0%nat d0 1) c
          = Ok (mkSweep [0%nat]
                  (if decide (d0 = 0) then replicate no_procs None
                   else <[c:=Some 0%nat]> (replicate no_procs None))
                  0%nat (d0 + d1) 2)) as Hstep1.
  { unfold sweep_body, list_get. rewrite H1. simpl.
    assert ((d0 + d1 >? maxmergedim) = false) as ->
      by (rewrite Z.gtb_ltb; apply Z.ltb_ge; lia).
    rewrite (Hhit 1) by lia. simpl.
    destruct (decide (d0 = 0)) as [->|Hne]; simpl; [done|].
    assert ((d0 =? 0) = false) as -> by (by apply Z.eqb_neq).
    simpl. unfold list_set. rewrite decide_True by (by rewrite length_replicate).
    done. }
  cbn [for_each]. rewrite Hstep0. simpl. rewrite Hstep1. done.
Qed.

Section ScheduleMore.

Variable no_procs : nat.
Variable dims_global : list Z.
Variable maxmergedim : Z.
Variable no_of_merges : option Z.
Variable active_nodes : list nat.

(** X7: the future nodes of a plan are a subsequence of the active nodes:
    the active set only shrinks and keeps its order. *)
Theorem schedule_future_sublist (pl : plan) :
  Forall (λ d, 0 ≤ d ≤ maxmergedim) dims_global →
  (∀ n, no_of_merges = Some n → 2 ≤ n) →
  head active_nodes = Some 0%nat →
  NoDup active_nodes →
  schedule no_procs dims_global maxmergedim no_of_merges active_nodes = Ok pl →
  plan_future pl `sublist_of` active_nodes.
Proof.
  intros Hdims Hnom Hhead Hnd Hpl.
  apply schedule_inv in Hpl as (st & Hst & -> & _).
  by destruct (sweep_relations no_procs dims_global maxmergedim no_of_merges
                 active_nodes Hdims Hnom Hhead Hnd st Hst) as (_ & ? & _).
Qed.

(** X8: when every width is at least 1 (and at most [maxmergedim]), no
    active node is left out of a plan: it is either a future node, which
    sends nothing, or it is no future node and sends to one future node, in
    whose receive list it stands. *)
Theorem schedule_partitions_active_nodes (pl : plan) :
  Forall (λ d, 1 ≤ d ≤ maxmergedim) dims_global →
  (∀ n, no_of_merges = Some n → 2 ≤ n) →
  head active_nodes = Some 0%nat →
  NoDup active_nodes →
  Forall (λ k, (k < no_procs)%nat) active_nodes →
  schedule no_procs dims_global maxmergedim no_of_merges active_nodes = Ok pl →
  ∀ k, k ∈ active_nodes →
    (k ∈ plan_future pl ∧ plan_send_to pl !! k = Some None) ∨
    ((k ∉ plan_future pl) ∧
     ∃ f children,
       f ∈ plan_future pl ∧ plan_send_to pl !! k = Some (Some f) ∧
       plan_recv_from pl !! f = Some children ∧ k ∈ children).
Proof.
  intros Hdims Hnom Hhead Hnd Hall Hpl k Hk.
  apply schedule_inv in Hpl as (st & Hst & -> & -> & Hrf).
  assert (Forall (λ d, 0 ≤ d ≤ maxmergedim) dims_global) as Hdims0
    by (eapply Forall_impl; [exact Hdims|]; simpl; lia).
  assert (Forall (λ d, 1 ≤ d) dims_global) as Hone
    by (eapply Forall_impl; [exact Hdims|]; simpl; lia).
  destruct (sweep_relations no_procs dims_global maxmergedim no_of_merges
              active_nodes Hdims0 Hnom Hhead Hnd st Hst)
    as (_ & Hsub & Hlen & Hsend & Hpos).
  destruct (Hpos Hone) as [_ Hevery].
  assert (k < no_procs)%nat as Hkp by (by eapply Forall_forall in Hall).
  assert (Forall (λ f, (f < no_procs)%nat) (future_nodes st)) as Hfut.
  { apply Forall_forall. intros f Hf. eapply Forall_forall in Hall; [exact Hall|].
    by eapply elem_of_sublist. }
  destruct (lookup_lt_is_Some_2 (send_to st) k) as [v Hv]; [lia|].
  destruct v as [f|].
  - right. destruct (Hsend k f Hv) as (_ & Hkf & Hff). split; [done|].
    exists f, (senders_to no_procs (send_to st) f).
    split; [done|]. split; [done|]. split.
    + rewrite (build_recv_from_lookup _ _ _ _ f Hfut Hrf).
      by rewrite decide_True.
    + unfold senders_to. apply list_elem_of_filter. split; [done|].
      apply elem_of_seq. lia.
  - left. split; [|done].
    destruct (Hevery k Hk) as [?|[f Hf]]; [done | congruence].
Qed.

(** X9: a width of 0 on rank 0 leaves the second active node out of the
    plan: it is no future node, it has no node to send to, and no node
    receives from it. *)
Theorem schedule_orphans_after_zero_width (c : nat) (rest : list nat)
    (pl : plan) :
  active_nodes = 0%nat :: c :: rest →
  Forall (λ d, 0 ≤ d ≤ maxmergedim) dims_global →
  (∀ n, no_of_merges = Some n → 2 ≤ n) →
  NoDup active_nodes →
  Forall (λ k, (k < no_procs)%nat) active_nodes →
  length dims_global = no_procs →
  dims_global !! 0%nat = Some 0 →
  schedule no_procs dims_global maxmergedim no_of_merges active_nodes = Ok pl →
  (c ∉ plan_future pl) ∧
  plan_send_to pl !! c = Some None ∧
  ∀ f children, plan_recv_from pl !! f = Some children → c ∉ children.
Proof.
  intros -> Hdims Hnom Hnd Hall Hlen H0 Hpl.
  apply schedule_inv in Hpl as (st & Hst & -> & -> & Hrf).
  pose proof Hnd as Hnd'. apply NoDup_cons in Hnd' as [Hn0 Hnd'].
  apply NoDup_cons in Hnd' as [Hcr _].
  assert (c ≠ 0%nat) as Hc0 by (intros ->; apply Hn0; left).
  assert (c < no_procs)%nat as Hcp.
  { eapply Forall_forall in Hall; [exact Hall|]. right; left. }
  destruct (lookup_lt_is_Some_2 dims_global c) as [d1 H1]; [lia|].
  assert (0 ≤ d1 ≤ maxmergedim) as Hd1.
  { eapply Forall_forall in Hdims; [exact Hdims|].
    eapply list_elem_of_lookup_2; eauto. }
  rewrite (sweep_first_two no_procs dims_global maxmergedim no_of_merges
             c rest 0 d1) in Hst by (done || lia).
  rewrite decide_True in Hst by done.
  destruct (for_each_untouched _ _ _ _ _ _ c Hst Hcr) as [Hs Hf]. simpl in Hs, Hf.
  assert (c ∉ future_nodes st) as Hcf.
  { intros Hin. apply Hf in Hin. apply list_elem_of_singleton in Hin. done. }
  assert (send_to st !! c = Some None) as Hcs
    by (rewrite Hs; by apply lookup_replicate_2).
  split; [done|]. split; [done|].
  intros f children Hch Hin.
  assert (Forall (λ f, (f < no_procs)%nat) (future_nodes st)) as Hfut.
  { assert (Forall (λ d, 0 ≤ d ≤ maxmergedim) dims_global) as Hd by done.
    destruct (sweep_relations no_procs dims_global maxmergedim no_of_merges
                (0%nat :: c :: rest) Hd Hnom eq_refl Hnd st)
      as (_ & Hsub & _).
    { rewrite (sweep_first_two no_procs dims_global maxmergedim no_of_merges
                 c rest 0 d1) by (done || lia).
      by rewrite decide_True. }
    apply Forall_forall. intros g Hg. eapply Forall_forall in Hall; [exact Hall|].
    by eapply elem_of_sublist. }
  rewrite (build_recv_from_lookup _ _ _ _ f Hfut Hrf) in Hch.
  destruct (decide (f ∈ future_nodes st)).
  - injection Hch as <-. unfold senders_to in Hin.
    apply list_elem_of_filter in Hin as [Hin _]. congruence.
  - destruct (decide (f < no_procs)%nat); [|done].
    injection Hch as <-. inversion Hin.
Qed.

(** X10: when the widths of the first two active nodes fit under
    [maxmergedim] together and [no_of_merges] is unset or at least 2, the
    plan has strictly fewer future nodes than there are active nodes. *)
Theorem schedule_makes_progress (c : nat) (rest : list nat) (d0 d1 : Z)
    (pl : plan) :
  active_nodes = 0%nat :: c :: rest →
  (∀ n, no_of_merges = Some n → 2 ≤ n) →
  (c < no_procs)%nat →
  dims_global !! 0%nat = Some d0 → dims_global !! c = Some d1 →
  0 ≤ d0 → 0 ≤ d1 → d0 + d1 ≤ maxmergedim →
  schedule no_procs dims_global maxmergedim no_of_merges active_nodes = Ok pl →
  (length (plan_future pl) < length active_nodes)%nat.
Proof.
  intros -> Hnom Hc H0 H1 Hd0 Hd1 Hfit Hpl.
  apply schedule_inv in Hpl as (st & Hst & -> & _).
  rewrite (sweep_first_two no_procs dims_global maxmergedim no_of_merges
             c rest d0 d1) in Hst by (done || lia).
  apply for_each_future_length in Hst. simpl in *. lia.
Qed.

End ScheduleMore.

(** ** The level loop in rank mode: it returns, within as many passes as
    there are processes *)

Lemma traverse_from_ok {A B : Type} (f : nat → A → result B)
    (Q : nat → A → B → Prop) (l : list A) (i : nat) :
  (∀ j x, l !! j = Some x → ∃ y, f (i + j)%nat x = Ok y ∧ Q (i + j)%nat x y) →
  ∃ ys, traverse_from f i l = Ok ys ∧ length ys = length l ∧
        ∀ j x y, l !! j = Some x → ys !! j = Some y → Q (i + j)%nat x y.
Proof.
  revert i. induction l as [|a l IH]; intros i Hall; simpl.
  - exists []. split; [done|]. split; [done|]. intros j x y Hx. done.
  - destruct (Hall 0%nat a eq_refl) as (y & Hy & HQ).
    rewrite Nat.add_0_r in Hy, HQ. rewrite Hy. simpl.
    destruct (IH (S i)) as (ys & -> & Hlen & Hys).
    { intros j x Hx. destruct (Hall (S j) x Hx) as (z & Hz & HQz).
      replace (S i + j)%nat with (i + S j)%nat by lia. eauto. }
    simpl. exists (y :: ys). split; [done|]. split; [simpl; lia|].
    intros [|j] x z Hx Hz; simpl in *.
    + injection Hx as <-. injection Hz as <-. by rewrite Nat.add_0_r.
    + replace (i + S j)%nat with (S i + j)%nat by lia. eauto.
Qed.

Section RankMode.

Variable svd : Tensor → Tensor * list Q.
Variables maxrank maxmergedim safetyshift : Z.
Variable no_of_merges : option Z.

Hypothesis Hbackend : ∀ M,
  dtype_of M ≠ other_dtype →
  dtype_of (svd M).1 ≠ other_dtype ∧ shape1 (svd M).1 = length (svd M).2.
Hypothesis Hrank : 1 ≤ maxrank.
Hypothesis Hshift : 0 ≤ safetyshift.
Hypothesis Hmerge : 2 * (maxrank + safetyshift) ≤ maxmergedim.
Hypothesis Hnom : ∀ n, no_of_merges = Some n → 2 ≤ n.

(** A truncation in rank mode, with the shift [s] of the pass. *)
Lemma truncation_in_range (level rank : nat) (M : Tensor) (s : Z) :
  dtype_of M ≠ other_dtype → 0 ≤ s →
  ∃ U sigma e,
    compute_local_truncated_svd svd level rank M maxrank None s = Ok (U, sigma, e) ∧
    length sigma = shape1 U ∧ 1 ≤ Z.of_nat (shape1 U) ≤ maxrank + s ∧
    dtype_of U ≠ other_dtype.
Proof.
  intros HM Hs. destruct (Hbackend M HM) as [Hd Hw].
  destruct (svd M) as [U_f sigma_f] eqn:E. simpl in Hd, Hw.
  destruct (rank_mode_truncation svd level rank M U_f sigma_f maxrank s
              E Hd Hw Hrank Hs) as (U & sigma & e & Hrun & Hlen & Hr & HdU & _).
  exists U, sigma, e. rewrite HdU. done.
Qed.

Lemma shape1_scale_columns (U : Tensor) (sigma : list Q) :
  length sigma = shape1 U → shape1 (scale_columns U sigma) = shape1 U.
Proof.
  intros H. unfold shape1, scale_columns in *. simpl.
  rewrite length_zip_with. lia.
Qed.

Lemma level0_in_range (rank : nat) (A_loc : Tensor) :
  dtype_of A_loc ≠ other_dtype →
  ∃ p, level0 svd maxrank None safetyshift rank A_loc = Ok p ∧
       factor_in_range maxrank safetyshift p.
Proof.
  intros HA. unfold level0.
  destruct (truncation_in_range 0 rank A_loc safetyshift HA Hshift)
    as (U & sigma & e & -> & Hlen & Hr & Hd).
  simpl. eexists. split; [done|]. split; simpl; [done|].
  by rewrite shape1_scale_columns.
Qed.

(** What a process does in a pass, when the plan leaves no active node out. *)
Lemma node_pass_in_range (level : nat) (procs : list proc_state) (pl : plan)
    (active_nodes : list nat) (rank : nat) (me : proc_state) :
  Forall (factor_in_range maxrank safetyshift) procs →
  factor_in_range maxrank safetyshift me →
  (∀ f, f ∈ plan_future pl →
        plan_recv_from pl !! f
        = Some (senders_to (length procs) (plan_send_to pl) f)) →
  (∀ k, k ∈ active_nodes →
        k ∈ plan_future pl ∨ ∃ f, plan_send_to pl !! k = Some (Some f)) →
  ∃ me',
    node_pass svd level procs pl active_nodes maxrank None safetyshift rank me
    = Ok me' ∧
    factor_in_range maxrank safetyshift me' ∧
    (length (plan_future pl) = 1%nat → rank ∈ plan_future pl →
     Z.of_nat (shape1 (U_loc me')) ≤ maxrank).
Proof.
  intros Hprocs [Hmd Hmw] Hrecv Hsend. unfold node_pass.
  destruct (decide (rank ∈ plan_future pl)) as [Hf|Hf].
  - assert (list_get (plan_recv_from pl) rank
            = Ok (senders_to (length procs) (plan_send_to pl) rank)) as ->
      by (unfold list_get; by rewrite (Hrecv rank Hf)).
    simpl.
    destruct (traverse_from_ok (λ _ c, list_get procs c) (λ _ _ _, True)
                (senders_to (length procs) (plan_send_to pl) rank) 0)
      as (children & -> & _).
    { intros j c Hc. apply list_elem_of_lookup_2 in Hc.
      unfold senders_to in Hc. apply list_elem_of_filter in Hc as [_ Hc].
      apply elem_of_seq in Hc.
      destruct (lookup_lt_is_Some_2 procs c) as [p Hp]; [lia|].
      exists p. unfold list_get. by rewrite Hp. }
    simpl.
    set (s := if decide (length (plan_future pl) = 1%nat) then 0 else safetyshift).
    assert (0 ≤ s ≤ safetyshift) as Hs by (unfold s; case_decide; lia).
    destruct (truncation_in_range (S level) rank
                (hstack (U_loc me) (U_loc <$> children)) s)
      as (U & sigma & e & -> & Hlen & Hr & Hd); [done|lia|].
    simpl. eexists. split; [done|]. split.
    + split; simpl.
      * by case_decide.
      * case_decide; [rewrite shape1_scale_columns by done|]; lia.
    + intros Hone _. simpl. rewrite decide_False by lia.
      unfold s in Hr. rewrite decide_True in Hr by done. lia.
  - destruct (decide (rank ∈ active_nodes)) as [Ha|Ha].
    + destruct (Hsend rank Ha) as [?|[f ->]]; [done|].
      exists me. done.
    + exists me. done.
Qed.

(** One pass in rank mode. *)
Lemma loop_pass_in_range (level : nat) (active_nodes : list nat)
    (procs : list proc_state) :
  Forall (factor_in_range maxrank safetyshift) procs →
  head active_nodes = Some 0%nat →
  NoDup active_nodes →
  Forall (λ k, (k < length procs)%nat) active_nodes →
  ∃ pl procs',
    loop_pass svd level maxrank maxmergedim None safetyshift no_of_merges
      active_nodes procs = Ok (pl, procs') ∧
    Forall (factor_in_range maxrank safetyshift) procs' ∧
    length procs' = length procs ∧
    head (plan_future pl) = Some 0%nat ∧
    NoDup (plan_future pl) ∧
    Forall (λ k, (k < length procs')%nat) (plan_future pl) ∧
    (length (plan_future pl) ≤ length active_nodes)%nat ∧
    ((2 ≤ length active_nodes)%nat →
     (length (plan_future pl) < length active_nodes)%nat) ∧
    (length (plan_future pl) = 1%nat →
     ∀ p, procs' !! 0%nat = Some p → Z.of_nat (shape1 (U_loc p)) ≤ maxrank).
Proof.
  intros Hprocs Hhead Hnd Hall.
  set (dims := (λ p, Z.of_nat (shape1 (U_loc p))) <$> procs).
  assert (length dims = length procs) as Hlen by (unfold dims; apply length_fmap).
  assert (Forall (λ d, 1 ≤ d ≤ maxmergedim) dims) as Hdims.
  { unfold dims. apply Forall_fmap. eapply Forall_impl; [exact Hprocs|].
    intros p [_ Hw]. simpl. lia. }
  assert (Forall (λ d, 0 ≤ d ≤ maxmergedim) dims) as Hdims0
    by (eapply Forall_impl; [exact Hdims|]; simpl; lia).
  assert (Forall (λ d, 1 ≤ d) dims) as Hone
    by (eapply Forall_impl; [exact Hdims|]; simpl; lia).
  assert (∀ k d, dims !! k = Some d → 0 ≤ d ≤ maxmergedim) as Hdims'.
  { intros k d Hk. eapply Forall_forall in Hdims0; [exact Hdims0|].
    eapply list_elem_of_lookup_2; eauto. }
  assert (∀ k d, dims !! k = Some d → 1 ≤ d ≤ maxrank + safetyshift) as Hwidth.
  { intros k d Hk. unfold dims in Hk. rewrite list_lookup_fmap in Hk.
    destruct (procs !! k) as [p|] eqn:Hp; [|done]. injection Hk as <-.
    eapply Forall_forall in Hprocs; [|eapply list_elem_of_lookup_2; eauto].
    by destruct Hprocs. }
  destruct (sweep_ok_final (length procs) dims maxmergedim no_of_merges
              Hlen Hdims' Hnom active_nodes Hhead Hnd Hall) as (st & Hst & Hok).
  destruct (sweep_relations (length procs) dims maxmergedim no_of_merges
              active_nodes Hdims0 Hnom Hhead Hnd st Hst)
    as (_ & Hsub & _ & _ & Hpos).
  destruct (Hpos Hone) as [_ Hevery].
  assert (Forall (λ k, (k < length procs)%nat) (future_nodes st)) as Hfut.
  { apply Forall_forall. intros f Hf. by apply (ok_future _ _ _ _ _ _ Hok). }
  destruct (build_recv_from_spec (length procs) (future_nodes st) (send_to st) Hfut)
    as (rf & Hrf & Hlook).
  set (pl := mkPlan (future_nodes st) (send_to st) rf).
  assert (schedule (length procs) dims maxmergedim no_of_merges active_nodes
          = Ok pl) as Hpl.
  { unfold schedule. rewrite Hst. simpl. rewrite Hrf. done. }
  destruct (traverse_from_ok
              (node_pass svd level procs pl active_nodes maxrank None safetyshift)
              (λ rank _ me',
                 factor_in_range maxrank safetyshift me' ∧
                 (length (plan_future pl) = 1%nat → rank ∈ plan_future pl →
                  Z.of_nat (shape1 (U_loc me')) ≤ maxrank))
              procs 0) as (procs' & Hrun & Hlen' & Hall').
  { intros j me Hme. simpl.
    apply node_pass_in_range; try done.
    eapply Forall_forall in Hprocs; [exact Hprocs|].
    eapply list_elem_of_lookup_2; eauto. }
  exists pl, procs'. split.
  { unfold loop_pass. fold dims. rewrite Hpl. simpl. rewrite Hrun. done. }
  split.
  { apply Forall_forall. intros p' Hp'. apply list_elem_of_lookup in Hp' as [j Hj].
    destruct (lookup_lt_is_Some_2 procs j) as [p Hp].
    { rewrite <- Hlen'. by eapply lookup_lt_Some. }
    by destruct (Hall' j p p' Hp Hj). }
  split; [done|].
  split; [apply (ok_head _ _ _ _ _ _ Hok)|].
  split; [apply (ok_nodup _ _ _ _ _ _ Hok)|].
  split; [by rewrite Hlen'|].
  split; [by apply sublist_length|].
  split.
  - intros H2. destruct active_nodes as [|a0 [|c rest]]; simpl in H2; try lia.
    injection Hhead as ->. simpl.
    pose proof Hall as Hall2. apply Forall_cons in Hall2 as [H0p Hall2].
    apply Forall_cons in Hall2 as [Hcp _].
    destruct (lookup_lt_is_Some_2 dims 0%nat) as [d0 Hd0]; [lia|].
    destruct (lookup_lt_is_Some_2 dims c) as [d1 Hd1]; [lia|].
    pose proof (Hwidth _ _ Hd0). pose proof (Hwidth _ _ Hd1).
    rewrite (sweep_first_two (length procs) dims maxmergedim no_of_merges
               c rest d0 d1) in Hst by (done || lia).
    apply for_each_future_length in Hst. simpl in Hst. lia.
  - intros Hone' p Hp.
    destruct (lookup_lt_is_Some_2 procs 0%nat) as [p0 Hp0].
    { rewrite <- Hlen'. by eapply lookup_lt_Some. }
    destruct (Hall' 0%nat p0 p Hp0 Hp) as [_ Hw]. apply Hw; [done|].
    simpl. pose proof (ok_head _ _ _ _ _ _ Hok) as Hh.
    destruct (future_nodes st); [done|]. injection Hh as ->. left.
Qed.

(** The loop in rank mode returns once it is given as many passes as there
    are active nodes. *)
Lemma level_loop_in_range (fuel : nat) :
  ∀ (level : nat) (active_nodes : list nat) (procs : list proc_state),
    (length active_nodes ≤ fuel)%nat →
    Forall (factor_in_range maxrank safetyshift) procs →
    head active_nodes = Some 0%nat →
    NoDup active_nodes →
    Forall (λ k, (k < length procs)%nat) active_nodes →
    ∃ procs',
      level_loop svd fuel level maxrank maxmergedim None safetyshift
        no_of_merges active_nodes procs = Some (Ok procs') ∧
      length procs' = length procs ∧
      ∀ p, procs' !! 0%nat = Some p →
           dtype_of (U_loc p) ≠ other_dtype ∧
           1 ≤ Z.of_nat (shape1 (U_loc p)) ≤ maxrank.
Proof.
  induction fuel as [|fuel IH]; intros level active_nodes procs Hfuel Hprocs
    Hhead Hnd Hall.
  - destruct active_nodes; [done | simpl in Hfuel; lia].
  - destruct (loop_pass_in_range level active_nodes procs Hprocs Hhead Hnd Hall)
      as (pl & procs1 & Hpass & Hprocs1 & Hlen1 & Hh1 & Hnd1 & Hall1 & Hle
          & Hlt & Hfinal).
    simpl. rewrite Hpass.
    destruct (decide (length (plan_future pl) = 1%nat)) as [Hone|Hmore].
    + exists procs1. split; [done|]. split; [done|]. intros p Hp.
      eapply Forall_forall in Hprocs1; [|eapply list_elem_of_lookup_2; eauto].
      destruct Hprocs1 as [Hd Hw]. split; [done|].
      specialize (Hfinal Hone p Hp). lia.
    + assert (1 ≤ length (plan_future pl))%nat
        by (destruct (plan_future pl); [done | simpl; lia]).
      destruct (IH (S level) (plan_future pl) procs1) as (procs2 & Hrun & Hlen2 & Hw);
        try done; [lia|].
      exists procs2. split; [done|]. split; [lia | done].
Qed.

End RankMode.

(** [diag_svd] meets what the loop needs of the backend. *)
Lemma diag_svd_backend (M : Tensor) :
  dtype_of M ≠ other_dtype →
  dtype_of (diag_svd M).1 ≠ other_dtype ∧
  shape1 (diag_svd M).1 = length (diag_svd M).2.
Proof.
  intros H. split; [done|]. unfold diag_svd, diagonal, shape1. simpl.
  rewrite length_map, length_seq, length_imap, length_take. done.
Qed.

Lemma length_reconstruct_V (sqrt : Q → Q) (A_cols : list (list Q)) (U : Tensor) :
  length (reconstruct_V sqrt A_cols U).1 = shape1 U ∧
  length (reconstruct_V sqrt A_cols U).2 = shape1 U ∧
  ∀ col, col ∈ (reconstruct_V sqrt A_cols U).1 → length col = length A_cols.
Proof.
  unfold reconstruct_V, matmul_T, shape1.
  set (V := map (λ u, map (λ a, dot a u) A_cols) (columns U)).
  assert (length V = length (columns U)) as HV by apply length_map.
  assert (∀ col, col ∈ V → length col = length A_cols) as Hcol.
  { intros col Hc. apply list_elem_of_fmap in Hc as (u & -> & _).
    apply length_map. }
  destruct (Qlt_bool 0 _); simpl.
  - split; [|split].
    + rewrite length_zip_with, !length_fmap. lia.
    + by rewrite length_fmap.
    + intros col Hc. apply list_elem_of_lookup in Hc as [i Hi].
      rewrite lookup_zip_with in Hi.
      destruct (V !! i) as [v|] eqn:Hv; [|done]. simpl in Hi.
      destruct ((fdiv 1 <$> (vector_norm sqrt <$> V)) !! i); [|done].
      injection Hi as <-. unfold scale_column_by. rewrite length_map.
      apply Hcol. eapply list_elem_of_lookup_2; eauto.
  - split; [|split].
    + by rewrite length_fmap.
    + by rewrite length_fmap.
    + intros col Hc. apply list_elem_of_fmap in Hc as (v & -> & Hv).
      rewrite length_map. by apply Hcol.
Qed.

Section RankModeRun.

Variable svd : Tensor → Tensor * list Q.
Variable sqrt : Q → Q.

Hypothesis Hbackend : ∀ M,
  dtype_of M ≠ other_dtype →
  dtype_of (svd M).1 ≠ other_dtype ∧ shape1 (svd M).1 = length (svd M).2.

(** The whole of [hsvd] in rank mode. *)
Lemma hsvd_rank_mode_run (fuel : nat) (A : DNDarray)
    (maxrank maxmergedim safetyshift : Z) (no_of_merges : option Z)
    (full : bool) :
  1 ≤ maxrank → 0 ≤ safetyshift →
  2 * (maxrank + safetyshift) ≤ maxmergedim →
  (∀ n, no_of_merges = Some n → 2 ≤ n) →
  larrays A ≠ [] →
  Forall (λ M, dtype_of M ≠ other_dtype) (larrays A) →
  (length (larrays A) ≤ fuel)%nat →
  ∃ out,
    hsvd svd sqrt fuel A maxrank maxmergedim None safetyshift no_of_merges full
    = Some (Ok out) ∧
    1 ≤ Z.of_nat (output_rank out) ≤ maxrank.
Proof.
  intros Hr Hs Hm Hnom Hne Hdt Hfuel. unfold hsvd.
  set (flag := bool_decide (split A = Some 0%nat)).
  set (A' := if flag then dnd_T A else A).
  assert (length (larrays A') = length (larrays A)) as HlenA
    by (unfold A'; destruct flag; [apply length_fmap | done]).
  assert (Forall (λ M, dtype_of M ≠ other_dtype) (larrays A')) as Hdt'.
  { unfold A'. destruct flag; [|done]. simpl. by apply Forall_fmap. }
  assert (1 ≤ length (larrays A'))%nat as HP.
  { rewrite HlenA. destruct (larrays A); [done | simpl; lia]. }
  unfold loctol_of. simpl.
  destruct (traverse_from_ok (level0 svd maxrank None safetyshift)
              (λ _ _ p, factor_in_range maxrank safetyshift p) (larrays A') 0)
    as (procs & -> & Hlen & Hgood).
  { intros j M HM. apply level0_in_range; try done.
    eapply Forall_forall in Hdt'; [exact Hdt'|].
    eapply list_elem_of_lookup_2; eauto. }
  assert (Forall (factor_in_range maxrank safetyshift) procs) as Hprocs.
  { apply Forall_forall. intros p Hp. apply list_elem_of_lookup in Hp as [j Hj].
    destruct (lookup_lt_is_Some_2 (larrays A') j) as [M HM].
    { rewrite <- Hlen. by eapply lookup_lt_Some. }
    by apply (Hgood j M p). }
  destruct (initial_active_set (length (larrays A')) HP) as (Hh & Hnd & Hall).
  assert (Forall (λ k, (k < length procs)%nat) (seq 0 (length (larrays A'))))
    as Hall' by (by rewrite Hlen).
  assert (length (seq 0 (length (larrays A'))) ≤ fuel)%nat as Hfuel'
    by (rewrite length_seq; lia).
  destruct (level_loop_in_range svd maxrank maxmergedim safetyshift no_of_merges
              Hbackend Hr Hs Hm Hnom fuel 0 (seq 0 (length (larrays A'))) procs
              Hfuel' Hprocs Hh Hnd Hall')
    as (procs' & -> & Hlen' & Hroot).
  simpl.
  destruct (lookup_lt_is_Some_2 procs' 0%nat) as [root Hrootl]; [lia|].
  unfold list_get, bcast_root. rewrite Hrootl. simpl.
  destruct (Hroot root Hrootl) as [_ Hw].
  destruct (length_reconstruct_V sqrt (global_columns A') (U_loc root))
    as (HV & _ & _).
  destruct (reconstruct_V sqrt (global_columns A') (U_loc root)) as [V sigma].
  simpl in HV.
  destruct flag, full; simpl; eexists; (split; [reflexivity|]); simpl;
    rewrite ?HV; lia.
Qed.


End RankModeRun.

(** ** The gates *)

Lemma gate_checks_pass (A : DNDarray) :
  ndim A = 2%nat → dnd_dtype A = float32 ∨ dnd_dtype A = float64 →
  negb (ndim A =? 2)%nat = false ∧
  negb (bool_decide (dnd_dtype A = float32))
  && negb (bool_decide (dnd_dtype A = float64)) = false.
Proof. intros -> [-> | ->]; done. Qed.

(** What [hsvd_rank] hands to [hsvd] when it raises nothing. *)
Lemma hsvd_rank_gate_inv (A : pyobj) (maxrank : Z) (full : bool)
    (maxmergedim : option Z) (safetyshift : Z) (c : hsvd_call) :
  hsvd_rank_gate A maxrank full maxmergedim safetyshift = Ok c →
  ∃ A' L d,
    A = Dnd A' ∧ ndim A' = 2%nat ∧
    (dnd_dtype A' = float32 ∨ dnd_dtype A' = float64) ∧
    A_local_size A' = Ok L ∧
    c = mkCall A' maxrank d None safetyshift None full ∧
    2 * (maxrank + safetyshift) ≤ d ∧
    (maxmergedim = None → L ≤ d) ∧
    (∀ d', maxmergedim = Some d' → d = d' ∧ 2 * (maxrank + safetyshift) + 1 ≤ d).
Proof.
  unfold hsvd_rank_gate. destruct A as [A'|]; [|discriminate].
  destruct (Nat.eqb_spec (ndim A') 2) as [Hn|]; simpl; [|discriminate].
  intros H.
  assert (dnd_dtype A' = float32 ∨ dnd_dtype A' = float64) as Hd.
  { destruct (dnd_dtype A'); [by left | by right | discriminate H]. }
  assert (negb (bool_decide (dnd_dtype A' = float32))
          && negb (bool_decide (dnd_dtype A' = float64)) = false) as Hchk
    by (by destruct Hd as [-> | ->]).
  rewrite Hchk in H.
  destruct (A_local_size A') as [L|] eqn:HL; simpl in H; [|discriminate].
  destruct maxmergedim as [d'|].
  - destruct (Z.ltb_spec d' (2 * (maxrank + safetyshift) + 1)); simpl in H;
      [discriminate|].
    injection H as <-. exists A', L, d'.
    repeat split; try done; try lia; congruence.
  - destruct (tensor_ge L (2 * (maxrank + safetyshift))) as [b|] eqn:Hge;
      simpl in H; [|discriminate].
    apply tensor_ge_inv in Hge as [_ ->].
    destruct (Z.geb_spec L (2 * (maxrank + safetyshift))); simpl in H;
      injection H as <-; eexists A', L, _;
      repeat split; try done; try lia.
Qed.

(** X12: whatever [hsvd_rank] accepts, it hands to [hsvd] a maxmergedim of at
    least 2 (maxrank + safetyshift), which is at least the largest local
    width when it was defaulted, together with no tolerance and no bound on
    the number of merges. *)
Theorem hsvd_rank_gate_accepted_call (A : pyobj) (maxrank : Z) (full : bool)
    (maxmergedim : option Z) (safetyshift : Z) (c : hsvd_call) :
  hsvd_rank_gate A maxrank full maxmergedim safetyshift = Ok c →
  2 * (call_maxrank c + call_safetyshift c) ≤ call_maxmergedim c ∧
  (maxmergedim = None →
   ∀ L, A_local_size (call_A c) = Ok L → L ≤ call_maxmergedim c) ∧
  call_rtol c = None ∧ call_no_of_merges c = None.
Proof.
  intros H. apply hsvd_rank_gate_inv in H
    as (A' & L & d & -> & _ & _ & HL & -> & Hd & Hdef & _).
  simpl. split; [done|]. split; [|done].
  intros Hnone L' HL'. rewrite HL in HL'. injection HL' as <-. auto.
Qed.

Section EndToEnd.

Variable svd : Tensor → Tensor * list Q.
Variable sqrt : Q → Q.

Hypothesis Hbackend : ∀ M,
  dtype_of M ≠ other_dtype →
  dtype_of (svd M).1 ≠ other_dtype ∧ shape1 (svd M).1 = length (svd M).2.

(** X13: [hsvd_rank] on a 2-D float32 or float64 array with at least one
    process, a rank of at least 1, a safety shift that is not negative,
    2 (maxrank + safetyshift) within the range of int64 and maxmergedim unset
    or at least 2 (maxrank + safetyshift) + 1 neither raises nor runs for
    more passes than there are processes, and the returned factor has between
    1 and maxrank columns. *)
Theorem hsvd_rank_returns (fuel : nat) (A : DNDarray) (maxrank : Z)
    (full : bool) (maxmergedim : option Z) (safetyshift : Z) :
  ndim A = 2%nat →
  dnd_dtype A = float32 ∨ dnd_dtype A = float64 →
  larrays A ≠ [] →
  Forall (λ M, dtype_of M ≠ other_dtype) (larrays A) →
  1 ≤ maxrank → 0 ≤ safetyshift →
  2 * (maxrank + safetyshift) ≤ int64_max →
  (∀ d, maxmergedim = Some d → 2 * (maxrank + safetyshift) + 1 ≤ d) →
  (length (larrays A) ≤ fuel)%nat →
  ∃ out,
    hsvd_rank svd sqrt fuel (Dnd A) maxrank full maxmergedim safetyshift
    = Some (Ok out) ∧
    1 ≤ Z.of_nat (output_rank out) ≤ maxrank.
Proof.
  intros Hn Hd Hne Hdt Hr Hs Hfit Hm Hfuel. unfold hsvd_rank.
  destruct (hsvd_rank_gate (Dnd A) maxrank full maxmergedim safetyshift)
    as [c|e] eqn:Hgate.
  - apply hsvd_rank_gate_inv in Hgate
      as (A' & L & d & [= <-] & _ & _ & _ & -> & Hd2 & _ & _).
    simpl. apply hsvd_rank_mode_run; try done.
  - exfalso. unfold hsvd_rank_gate in Hgate.
    destruct (gate_checks_pass A Hn Hd) as [H1 H2]. rewrite H1, H2 in Hgate.
    destruct (py_max_nonempty ((λ M, Z.of_nat (shape1 M)) <$> larrays A))
      as [L HL].
    { destruct (larrays A); [done | discriminate]. }
    unfold A_local_size in Hgate. rewrite HL in Hgate. simpl in Hgate.
    destruct maxmergedim as [d|].
    + specialize (Hm d eq_refl).
      destruct (Z.ltb_spec d (2 * (maxrank + safetyshift) + 1)); [lia|].
      discriminate.
    + rewrite tensor_ge_fits in Hgate by (unfold int64_min; lia).
      simpl in Hgate. destruct (_ >=? _); discriminate.
Qed.

End EndToEnd.

Section RtolGate.

Variable A : DNDarray.
Variable rtol : Q.
Variable full : bool.
Variable safetyshift : Z.
Variable L : Z.

Hypothesis Hndim : ndim A = 2%nat.
Hypothesis Hdtype : dnd_dtype A = float32 ∨ dnd_dtype A = float64.
Hypothesis HL : A_local_size A = Ok L.

Lemma hsvd_rtol_gate_valid (maxrank maxmergedim no_of_merges : option Z) :
  hsvd_rtol_gate (Dnd A) rtol full maxrank maxmergedim safetyshift no_of_merges
  = (maxrank ←
       match maxmergedim, maxrank with
       | Some _, None =>
           let r := L / 2 - safetyshift in
           if r <=? 0 then Raise ValueError else Ok (Some r)
       | _, _ => Ok maxrank
       end;
     maxmergedim ←
       match maxmergedim, maxrank with
       | None, Some r =>
           ge ← tensor_ge L (2 * (r + safetyshift));
           if (ge : bool) then Ok (Some L)
           else Ok (Some (2 * (r + safetyshift) + 1))
       | _, _ => Ok maxmergedim
       end;
     _ ←
       match maxmergedim, maxrank with
       | Some d, Some r =>
           if d <? 2 * (r + safetyshift) + 1 then Raise ValueError else Ok tt
       | _, _ => Ok tt
       end;
     let '(no_of_merges, maxmergedim, maxrank) :=
       match maxmergedim, maxrank with
       | None, None =>
           (match no_of_merges with None => Some 2 | Some n => Some n end,
            Some (2 * (dnd_shape1 A + safetyshift) + 1),
            Some (dnd_shape1 A))
       | _, _ => (no_of_merges, maxmergedim, maxrank)
       end in
     _ ←
       match no_of_merges with
       | Some n => if n <? 2 then Raise ValueError else Ok tt
       | None => Ok tt
       end;
     match maxrank, maxmergedim with
     | Some r, Some d =>
         Ok (mkCall A r d (Some rtol) safetyshift no_of_merges full)
     | _, _ => Raise TypeError
     end).
Proof.
  unfold hsvd_rtol_gate.
  destruct (gate_checks_pass A Hndim Hdtype) as [-> ->]. rewrite HL. done.
Qed.

(** X15: with only maxmergedim given, the rank cap is derived from the
    largest local width L alone, as floor(L / 2) - safetyshift, and the
    gate accepts exactly when that is at least 1 and maxmergedim is at least
    2 floor(L / 2) + 1; otherwise it raises ValueError. *)
Theorem hsvd_rtol_gate_only_maxmergedim (d : Z) (no_of_merges : option Z) :
  (∀ n, no_of_merges = Some n → 2 ≤ n) →
  hsvd_rtol_gate (Dnd A) rtol full None (Some d) safetyshift no_of_merges
  = if decide (1 ≤ L / 2 - safetyshift ∧ 2 * (L / 2) + 1 ≤ d)
    then Ok (mkCall A (L / 2 - safetyshift) d (Some rtol) safetyshift
               no_of_merges full)
    else Raise ValueError.
Proof.
  intros Hnom. rewrite hsvd_rtol_gate_valid. simpl.
  destruct (Z.leb_spec (L / 2 - safetyshift) 0) as [Hle|Hgt]; simpl.
  - rewrite decide_False by lia. done.
  - destruct (Z.ltb_spec d (2 * (L / 2 - safetyshift + safetyshift) + 1))
      as [Hlt|Hge]; simpl.
    + rewrite decide_False by lia. done.
    + rewrite decide_True by lia.
      destruct no_of_merges as [n|]; simpl; [|done].
      specialize (Hnom n eq_refl).
      destruct (Z.ltb_spec n 2); [lia|]. done.
Qed.

(** X16: with only maxrank given, the default of maxmergedim is found by
    comparing the int64 tensor L with 2 (maxrank + safetyshift), and is then
    checked by the gate like a given one. When 2 (maxrank + safetyshift) is
    outside the range of int64 the comparison raises RuntimeError. Otherwise,
    at L = 2 (maxrank + safetyshift) the default is L and the gate raises
    ValueError, and for every other L it accepts and hands on
    max(L, 2 (maxrank + safetyshift) + 1). *)
Theorem hsvd_rtol_gate_only_maxrank (r : Z) (no_of_merges : option Z) :
  (∀ n, no_of_merges = Some n → 2 ≤ n) →
  hsvd_rtol_gate (Dnd A) rtol full (Some r) None safetyshift no_of_merges
  = if decide (int64_min ≤ 2 * (r + safetyshift) ≤ int64_max)
    then if decide (L = 2 * (r + safetyshift))
         then Raise ValueError
         else Ok (mkCall A r (Z.max L (2 * (r + safetyshift) + 1)) (Some rtol)
                    safetyshift no_of_merges full)
    else Raise RuntimeError.
Proof.
  intros Hnom. rewrite hsvd_rtol_gate_valid. simpl.
  assert (∀ d, (match no_of_merges with
                | Some n => if n <? 2 then Raise ValueError else Ok tt
                | None => Ok tt
                end
                ≫= λ _ : (), Ok (mkCall A r d (Some rtol) safetyshift
                                   no_of_merges full))
               = Ok (mkCall A r d (Some rtol) safetyshift no_of_merges full))
    as Hn.
  { intros d. destruct no_of_merges as [n|]; simpl; [|done].
    specialize (Hnom n eq_refl). destruct (Z.ltb_spec n 2); [lia|]. done. }
  destruct (decide (int64_min ≤ 2 * (r + safetyshift) ≤ int64_max)) as [Hfit|Hout].
  - rewrite (tensor_ge_fits _ _ Hfit). simpl.
    destruct (Z.geb_spec L (2 * (r + safetyshift))) as [Hge|Hlt]; simpl.
    + destruct (Z.ltb_spec L (2 * (r + safetyshift) + 1)) as [Hb|Hb]; simpl.
      * rewrite decide_True by lia. done.
      * rewrite decide_False by lia. rewrite Hn. do 2 f_equal. lia.
    + destruct (Z.ltb_spec (2 * (r + safetyshift) + 1) (2 * (r + safetyshift) + 1));
        [lia|]. simpl.
      rewrite decide_False by lia. rewrite Hn. do 2 f_equal. lia.
  - unfold tensor_ge.
    destruct (Z.leb_spec int64_min (2 * (r + safetyshift))),
             (Z.leb_spec (2 * (r + safetyshift)) int64_max); simpl;
      try done; lia.
Qed.

(** X14: whatever [hsvd_rtol] accepts, it hands to [hsvd] a maxmergedim of at
    least 2 (maxrank + safetyshift) + 1, a number of merges that is unset or
    at least 2, and the tolerance it was given. *)
Theorem hsvd_rtol_gate_accepted_call (maxrank maxmergedim no_of_merges : option Z)
    (c : hsvd_call) :
  hsvd_rtol_gate (Dnd A) rtol full maxrank maxmergedim safetyshift no_of_merges
  = Ok c →
  2 * (call_maxrank c + call_safetyshift c) + 1 ≤ call_maxmergedim c ∧
  (∀ n, call_no_of_merges c = Some n → 2 ≤ n) ∧
  call_rtol c = Some rtol ∧
  call_safetyshift c = safetyshift.
Proof.
  rewrite hsvd_rtol_gate_valid.
  destruct maxrank as [r|], maxmergedim as [d|]; simpl.
  - destruct (Z.ltb_spec d (2 * (r + safetyshift) + 1)); simpl; [discriminate|].
    destruct no_of_merges as [n|]; simpl;
      [destruct (Z.ltb_spec n 2); simpl; [discriminate|]|];
      intros [= <-]; simpl; repeat split; try lia; try done.
    intros ? [= <-]. lia.
  - destruct (tensor_ge L (2 * (r + safetyshift))) as [b|] eqn:Hge; simpl;
      [|discriminate].
    apply tensor_ge_inv in Hge as [_ ->].
    destruct (Z.geb_spec L (2 * (r + safetyshift))); simpl.
    + destruct (Z.ltb_spec L (2 * (r + safetyshift) + 1)); simpl; [discriminate|].
      destruct no_of_merges as [n|]; simpl;
        [destruct (Z.ltb_spec n 2); simpl; [discriminate|]|];
        intros [= <-]; simpl; repeat split; try lia; try done.
      intros ? [= <-]. lia.
    + destruct (Z.ltb_spec (2 * (r + safetyshift) + 1) (2 * (r + safetyshift) + 1));
        [lia|]. simpl.
      destruct no_of_merges as [n|]; simpl;
        [destruct (Z.ltb_spec n 2); simpl; [discriminate|]|];
        intros [= <-]; simpl; repeat split; try lia; try done.
      intros ? [= <-]. lia.
  - destruct (Z.leb_spec (L / 2 - safetyshift) 0); simpl; [discriminate|].
    destruct (Z.ltb_spec d (2 * (L / 2 - safetyshift + safetyshift) + 1));
      simpl; [discriminate|].
    destruct no_of_merges as [n|]; simpl;
      [destruct (Z.ltb_spec n 2); simpl; [discriminate|]|];
      intros [= <-]; simpl; repeat split; try lia; try done.
    intros ? [= <-]. lia.
  - destruct no_of_merges as [n|]; simpl.
    + destruct (Z.ltb_spec n 2); simpl; [discriminate|].
      intros [= <-]; simpl; repeat split; try lia; try done.
      intros ? [= <-]. lia.
    + intros [= <-]; simpl; repeat split; try lia; try done.
      intros ? [= <-]. lia.
Qed.

End RtolGate.

(** ** The shape of the reconstructed factor *)

(** X17: whether or not the columns are scaled, the reconstructed V has one
    column per column of U, each with one entry per column of A, and sigma
    has one entry per column of U. *)
Theorem reconstruct_V_shapes (sqrt : Q → Q) (A_cols : list (list Q)) (U : Tensor) :
  length (reconstruct_V sqrt A_cols U).1 = shape1 U ∧
  length (reconstruct_V sqrt A_cols U).2 = shape1 U ∧
  ∀ col, col ∈ (reconstruct_V sqrt A_cols U).1 → length col = length A_cols.
Proof. apply length_reconstruct_V. Qed.

(** ** The properties above on concrete inputs *)

Open Scope Q_scope.

Lemma reported_error_covers_discarded_witness :
  let M := mkTensor float64 2 [[2; 0]; [0; 1]] in
  (0 ≤ 1)%Z ∧ (0 ≤ 2)%Z ∧
  compute_local_truncated_svd diag_svd 0 0 M 1 None 2
  = Ok (mkTensor float64 2 [[1; 0]; [0; 1]], [2; 1], 5) ∧
  norm_sq [2; 1] <= norm_sq [2; 1] + 5.
Proof.
  intros M.
  assert (0 ≤ 1)%Z as H1 by lia. assert (0 ≤ 2)%Z as H2 by lia.
  split; [exact H1|]. split; [exact H2|]. split; [reflexivity|].
  apply (reported_error_covers_discarded diag_svd 0 0 M
           (mkTensor float64 2 [[1; 0]; [0; 1]])
           (mkTensor float64 2 [[1; 0]; [0; 1]]) [2; 1] [2; 1] 1 None 2 5
           eq_refl H1 H2 eq_refl).
Defined.

Lemma reported_error_exact_without_shift_witness :
  let M := mkTensor float64 2 [[2; 0]; [0; 1]] in
  (0 ≤ 1)%Z ∧
  compute_local_truncated_svd diag_svd 0 0 M 1 None 0
  = Ok (mkTensor float64 2 [[1; 0]], [2], 1) ∧
  norm_sq [2] + 1 == norm_sq [2; 1].
Proof.
  intros M. assert (0 ≤ 1)%Z as H1 by lia.
  split; [exact H1|]. split; [reflexivity|].
  apply (reported_error_exact_without_shift diag_svd 0 0 M
           (mkTensor float64 2 [[1; 0]; [0; 1]])
           (mkTensor float64 2 [[1; 0]]) [2; 1] [2] 1 None 1
           eq_refl H1 eq_refl).
Defined.

Lemma no_noise_kept_without_shift_witness :
  let M := mkTensor float64 2 [[2; 0]; [0; 1 # 1000000000000000]] in
  let sigma_f := [2; 1 # 1000000000000000] in
  (∀ (i j : nat) (x y : Q),
     (i ≤ j)%nat → sigma_f !! i = Some x → sigma_f !! j = Some y → y <= x) ∧
  compute_local_truncated_svd diag_svd 0 0 M 2 None 0
  = Ok (mkTensor float64 2 [[1; 0]], [2], (1 # 1000000000000000) * (1 # 1000000000000000) + 0) ∧
  (([2] = [0] ∧ ∀ s, s ∈ sigma_f → s < 1 # 100000000000000) ∨
   (∀ s, s ∈ [2] → (1 # 100000000000000) <= s)).
Proof.
  intros M sigma_f.
  assert (∀ (i j : nat) (x y : Q),
            (i ≤ j)%nat → sigma_f !! i = Some x → sigma_f !! j = Some y → y <= x)
    as Hs.
  { intros [|[|i]] [|[|j]] x y Hle Hi Hj; simpl in *;
      try discriminate; try lia;
      injection Hi as <-; injection Hj as <-; discriminate. }
  assert (0 ≤ 2)%Z as H2 by lia.
  split; [exact Hs|]. split; [reflexivity|].
  apply (no_noise_kept_without_shift diag_svd 0 0 M
           (mkTensor float64 2 [[1; 0]; [0; 1]])
           (mkTensor float64 2 [[1; 0]]) sigma_f [2] 2 None
           ((1 # 1000000000000000) * (1 # 1000000000000000) + 0)
           (1 # 100000000000000)
           eq_refl eq_refl Hs H2 eq_refl).
Defined.



Lemma ideal_trunc_rank_antitone_witness :
  ideal_trunc_rank [2; 1] (3 # 2) = Ok 1%Z ∧
  ideal_trunc_rank [2; 1] 3 = Ok 0%Z ∧
  (3 # 2) * (3 # 2) <= 3 * 3 ∧
  (0 ≤ 1)%Z.
Proof.
  assert ((3 # 2) * (3 # 2) <= 3 * 3) as H by discriminate.
  split; [reflexivity|]. split; [reflexivity|]. split; [exact H|].
  apply (ideal_trunc_rank_antitone [2; 1] (3 # 2) 3 1 0 eq_refl eq_refl H).
Defined.

Open Scope Z_scope.

Lemma schedule_future_sublist_witness :
  let pl := mkPlan [0; 2]%nat [None; Some 0%nat; None; Some 2%nat]
              [[1%nat]; []; [3%nat]; []] in
  Forall (λ d, 0 ≤ d ≤ 4) [2; 2; 2; 2] ∧
  (∀ n, None = Some n → 2 ≤ n) ∧
  NoDup [0; 1; 2; 3]%nat ∧
  schedule 4 [2; 2; 2; 2] 4 None [0; 1; 2; 3]%nat = Ok pl ∧
  plan_future pl `sublist_of` [0; 1; 2; 3]%nat.
Proof.
  intros pl.
  assert (Forall (λ d, 0 ≤ d ≤ 4) [2; 2; 2; 2]) as H1
    by (repeat constructor; lia).
  assert (∀ n, @None Z = Some n → 2 ≤ n) as H2 by discriminate.
  assert (NoDup [0; 1; 2; 3]%nat) as H3 by (apply (NoDup_seq 0 4)).
  split; [exact H1|]. split; [exact H2|]. split; [exact H3|].
  split; [reflexivity|].
  apply (schedule_future_sublist 4 [2; 2; 2; 2] 4 None [0; 1; 2; 3]%nat pl
           H1 H2 eq_refl H3 eq_refl).
Defined.

Lemma schedule_partitions_active_nodes_witness :
  let pl := mkPlan [0; 2]%nat [None; Some 0%nat; None; Some 2%nat]
              [[1%nat]; []; [3%nat]; []] in
  Forall (λ d, 1 ≤ d ≤ 4) [2; 2; 2; 2] ∧
  Forall (λ k, (k < 4)%nat) [0; 1; 2; 3]%nat ∧
  schedule 4 [2; 2; 2; 2] 4 None [0; 1; 2; 3]%nat = Ok pl ∧
  ∀ k, k ∈ [0; 1; 2; 3]%nat →
    (k ∈ plan_future pl ∧ plan_send_to pl !! k = Some None) ∨
    ((k ∉ plan_future pl) ∧
     ∃ f children,
       f ∈ plan_future pl ∧ plan_send_to pl !! k = Some (Some f) ∧
       plan_recv_from pl !! f = Some children ∧ k ∈ children).
Proof.
  intros pl.
  assert (Forall (λ d, 1 ≤ d ≤ 4) [2; 2; 2; 2]) as H1
    by (repeat constructor; lia).
  assert (∀ n, @None Z = Some n → 2 ≤ n) as H2 by discriminate.
  assert (NoDup [0; 1; 2; 3]%nat) as H3 by (apply (NoDup_seq 0 4)).
  assert (Forall (λ k, (k < 4)%nat) [0; 1; 2; 3]%nat) as H4
    by (repeat constructor; lia).
  split; [exact H1|]. split; [exact H4|]. split; [reflexivity|].
  apply (schedule_partitions_active_nodes 4 [2; 2; 2; 2] 4 None
           [0; 1; 2; 3]%nat pl H1 H2 eq_refl H3 H4 eq_refl).
Defined.

Lemma schedule_orphans_after_zero_width_witness :
  let pl := mkPlan [0; 3]%nat [None; None; Some 0%nat; None]
              [[2%nat]; []; []; []] in
  Forall (λ d, 0 ≤ d ≤ 4) [0; 2; 2; 2] ∧
  [0; 2; 2; 2] !! 0%nat = Some 0 ∧
  schedule 4 [0; 2; 2; 2] 4 None [0; 1; 2; 3]%nat = Ok pl ∧
  (1%nat ∉ plan_future pl) ∧
  plan_send_to pl !! 1%nat = Some None ∧
  ∀ f children, plan_recv_from pl !! f = Some children → 1%nat ∉ children.
Proof.
  intros pl.
  assert (Forall (λ d, 0 ≤ d ≤ 4) [0; 2; 2; 2]) as H1
    by (repeat constructor; lia).
  assert (∀ n, @None Z = Some n → 2 ≤ n) as H2 by discriminate.
  assert (NoDup [0; 1; 2; 3]%nat) as H3 by (apply (NoDup_seq 0 4)).
  assert (Forall (λ k, (k < 4)%nat) [0; 1; 2; 3]%nat) as H4
    by (repeat constructor; lia).
  split; [exact H1|]. split; [reflexivity|]. split; [reflexivity|].
  apply (schedule_orphans_after_zero_width 4 [0; 2; 2; 2] 4 None
           [0; 1; 2; 3]%nat 1%nat [2; 3]%nat pl
           eq_refl H1 H2 H3 H4 eq_refl eq_refl eq_refl).
Defined.

Lemma schedule_makes_progress_witness :
  let pl := mkPlan [0; 2]%nat [None; Some 0%nat; None; Some 2%nat]
              [[1%nat]; []; [3%nat]; []] in
  2 + 2 ≤ 4 ∧
  schedule 4 [2; 2; 2; 2] 4 None [0; 1; 2; 3]%nat = Ok pl ∧
  (length (plan_future pl) < length [0; 1; 2; 3]%nat)%nat.
Proof.
  intros pl.
  assert (∀ n, @None Z = Some n → 2 ≤ n) as H2 by discriminate.
  assert (2 + 2 ≤ 4) as H5 by lia.
  split; [exact H5|]. split; [reflexivity|].
  apply (schedule_makes_progress 4 [2; 2; 2; 2] 4 None [0; 1; 2; 3]%nat
           1%nat [2; 3]%nat 2 2 pl eq_refl H2 ltac:(lia) eq_refl eq_refl
           ltac:(lia) ltac:(lia) H5 eq_refl).
Defined.


Lemma hsvd_rank_gate_accepted_call_witness :
  let A := mkDND 2 float64 (Some 1%nat) [mkTensor float64 2 [[2; 0]; [0; 1]]%Q] in
  let c := mkCall A 1 2 None 0 None false in
  hsvd_rank_gate (Dnd A) 1 false None 0 = Ok c ∧
  2 * (call_maxrank c + call_safetyshift c) ≤ call_maxmergedim c ∧
  (@None Z = None →
   ∀ L, A_local_size (call_A c) = Ok L → L ≤ call_maxmergedim c) ∧
  call_rtol c = None ∧ call_no_of_merges c = None.
Proof.
  intros A c. split; [reflexivity|].
  apply (hsvd_rank_gate_accepted_call (Dnd A) 1 false None 0 c eq_refl).
Defined.

Lemma hsvd_rank_returns_witness :
  let A := mkDND 2 float64 (Some 1%nat) [mkTensor float64 2 [[2; 0]; [0; 1]]%Q] in
  (dnd_dtype A = float32 ∨ dnd_dtype A = float64) ∧
  Forall (λ M, dtype_of M ≠ other_dtype) (larrays A) ∧
  ∃ out,
    hsvd_rank diag_svd exact_sqrt 1 (Dnd A) 1 false None 0 = Some (Ok out) ∧
    1 ≤ Z.of_nat (output_rank out) ≤ 1.
Proof.
  intros A.
  assert (dnd_dtype A = float32 ∨ dnd_dtype A = float64) as H0 by (by right).
  assert (Forall (λ M, dtype_of M ≠ other_dtype) (larrays A)) as H1
    by (repeat constructor; discriminate).
  assert (∀ d, @None Z = Some d → 2 * (1 + 0) + 1 ≤ d) as H2 by discriminate.
  split; [exact H0|]. split; [exact H1|].
  apply (hsvd_rank_returns diag_svd exact_sqrt diag_svd_backend 1 A 1 false
           None 0 eq_refl H0 ltac:(discriminate) H1 ltac:(lia) ltac:(lia)
           ltac:(unfold int64_max; lia) H2 ltac:(simpl; lia)).
Defined.

Lemma hsvd_rtol_gate_accepted_call_witness :
  let A := mkDND 2 float64 (Some 1%nat) [mkTensor float64 2 [[2; 0]; [0; 1]]%Q] in
  let c := mkCall A 2 5 (Some (1 # 10)%Q) 0 (Some 2) false in
  hsvd_rtol_gate (Dnd A) (1 # 10) false None None 0 None = Ok c ∧
  2 * (call_maxrank c + call_safetyshift c) + 1 ≤ call_maxmergedim c ∧
  (∀ n, call_no_of_merges c = Some n → 2 ≤ n) ∧
  call_rtol c = Some (1 # 10)%Q ∧
  call_safetyshift c = 0.
Proof.
  intros A c. split; [reflexivity|].
  apply (hsvd_rtol_gate_accepted_call A (1 # 10) false 0 2 eq_refl
           (or_intror eq_refl) eq_refl None None None c eq_refl).
Defined.

Lemma hsvd_rtol_gate_only_maxmergedim_witness :
  let A := mkDND 2 float64 (Some 1%nat) [mkTensor float64 2 [[2; 0]; [0; 1]]%Q] in
  A_local_size A = Ok 2 ∧
  hsvd_rtol_gate (Dnd A) (1 # 10) false None (Some 2) 0 None
  = if decide (1 ≤ 2 / 2 - 0 ∧ 2 * (2 / 2) + 1 ≤ 2)
    then Ok (mkCall A (2 / 2 - 0) 2 (Some (1 # 10)%Q) 0 None false)
    else Raise ValueError.
Proof.
  intros A. split; [reflexivity|].
  apply (hsvd_rtol_gate_only_maxmergedim A (1 # 10) false 0 2 eq_refl
           (or_intror eq_refl) eq_refl 2 None).
  discriminate.
Defined.

Lemma hsvd_rtol_gate_only_maxrank_witness :
  let A := mkDND 2 float64 (Some 1%nat) [mkTensor float64 2 [[2; 0]; [0; 1]]%Q] in
  A_local_size A = Ok 2 ∧
  hsvd_rtol_gate (Dnd A) (1 # 10) false (Some 1) None 0 None
  = if decide (int64_min ≤ 2 * (1 + 0) ≤ int64_max)
    then if decide (2 = 2 * (1 + 0))
         then Raise ValueError
         else Ok (mkCall A 1 (Z.max 2 (2 * (1 + 0) + 1)) (Some (1 # 10)%Q) 0
                    None false)
    else Raise RuntimeError.
Proof.
  intros A. split; [reflexivity|].
  apply (hsvd_rtol_gate_only_maxrank A (1 # 10) false 0 2 eq_refl
           (or_intror eq_refl) eq_refl 1 None).
  discriminate.
Defined.

Open Scope Q_scope.

Section RankCapMonotone.

Variable svd : Tensor → Tensor * list Q.
Variables level proc_id : nat.

(** X18: raising the rank cap, with everything else fixed, never makes the
    returned factor narrower and never raises the reported error. *)
Theorem larger_rank_cap_keeps_more (M U_f U U' : Tensor)
    (sigma_f sigma sigma' : list Q) (maxrank maxrank' : Z)
    (loctol : option Q) (safetyshift : Z) (e e' : Q) :
  svd M = (U_f, sigma_f) →
  (0 ≤ maxrank ≤ maxrank')%Z → (0 ≤ safetyshift)%Z →
  compute_local_truncated_svd svd level proc_id M maxrank loctol safetyshift
  = Ok (U, sigma, e) →
  compute_local_truncated_svd svd level proc_id M maxrank' loctol safetyshift
  = Ok (U', sigma', e') →
  (length sigma ≤ length sigma')%nat ∧ e' <= e.
Proof.
  intros Hsvd Hr Hs Hrun Hrun'.
  destruct (compute_local_truncated_svd_inv _ _ _ _ _ _ _ _ _ _ _ _ Hsvd Hrun)
    as (eps & Heps & [(Hnil & _ & -> & ->) | (mx & b & Hmx & Hb & _ & -> & ->)]);
  destruct (compute_local_truncated_svd_inv _ _ _ _ _ _ _ _ _ _ _ _ Hsvd Hrun')
    as (eps' & Heps' & [(Hnil' & _ & -> & ->) | (mx' & b' & Hmx' & Hb' & _ & -> & ->)]);
  assert (eps' = eps) as -> by congruence.
  - split; [done | apply Qle_refl].
  - rewrite Hnil in Hmx'. discriminate.
  - rewrite Hnil' in Hmx. discriminate.
  - assert (mx' = mx) as -> by congruence.
    assert (0 ≤ mx)%Z as Hmx0.
    { apply py_max_spec in Hmx as [Hin _].
      apply no_noise_idx_range in Hin. lia. }
    assert (0 ≤ b ≤ maxrank)%Z as Hbb
      by (apply (base_rank_bounds _ _ _ _ _ Hb); lia).
    assert (0 ≤ b' ≤ maxrank')%Z as Hbb'
      by (apply (base_rank_bounds _ _ _ _ _ Hb'); lia).
    assert (b ≤ b')%Z as Hle.
    { unfold base_rank in Hb, Hb'. destruct loctol as [tol|].
      - destruct (ideal_trunc_rank sigma_f tol); simpl in *; [|discriminate].
        injection Hb as <-. injection Hb' as <-. lia.
      - injection Hb as <-. injection Hb' as <-. lia. }
    set (c := length sigma_f).
    set (r := Z.min (Z.of_nat c) (b + safetyshift)).
    set (r' := Z.min (Z.of_nat c) (b' + safetyshift)).
    split.
    + rewrite !length_slice_to by (fold c; lia). lia.
    + unfold slice_from. fold c. apply norm_sq_drop_le.
      unfold slice_bound.
      destruct (Z.ltb_spec (r - safetyshift) 0),
               (Z.ltb_spec (r' - safetyshift) 0); lia.
Qed.

End RankCapMonotone.

Lemma larger_rank_cap_keeps_more_witness :
  let M := mkTensor float64 2 [[2; 0]; [0; 1]] in
  (0 ≤ 1 ≤ 2)%Z ∧ (0 ≤ 0)%Z ∧
  compute_local_truncated_svd diag_svd 0 0 M 1 None 0
  = Ok (mkTensor float64 2 [[1; 0]], [2], 1) ∧
  compute_local_truncated_svd diag_svd 0 0 M 2 None 0
  = Ok (mkTensor float64 2 [[1; 0]; [0; 1]], [2; 1], 0) ∧
  (length [2] ≤ length [2; 1])%nat ∧ 0 <= 1.
Proof.
  intros M.
  assert (0 ≤ 1 ≤ 2)%Z as H1 by lia. assert (0 ≤ 0)%Z as H2 by lia.
  split; [exact H1|]. split; [exact H2|].
  split; [reflexivity|]. split; [reflexivity|].
  apply (larger_rank_cap_keeps_more diag_svd 0 0 M
           (mkTensor float64 2 [[1; 0]; [0; 1]])
           (mkTensor float64 2 [[1; 0]])
           (mkTensor float64 2 [[1; 0]; [0; 1]])
           [2; 1] [2] [2; 1] 1 2 None 0 1 0 eq_refl H1 H2 eq_refl eq_refl).
Defined.
